(** * embed_scripts.py: a shallow embedding and its verified properties

    The program scans the working directory for Python scripts, reads
    two magic comments out of each, base64-encodes the contents and
    splices a data declaration, a loader routine and a loader call into
    BrowserBox.html with two regular-expression substitutions.

    Python [str] values are lists of Unicode code points.  The parts of
    the standard library the program calls ([re], [str.split],
    [str.strip], [str.encode], [base64.b64encode], [json.dumps]) are
    embedded as executable functions with the behaviour of CPython 3. *)

From Stdlib Require Import Ascii String List NArith ZArith Bool Arith Lia.
Import ListNotations.

(** ** Text *)

Definition char := N.
Definition str := list char.

(** A source-code literal as a [str]. *)
Definition lit (s : string) : str := map N_of_ascii (list_ascii_of_string s).

Definition str_eqb (a b : str) : bool :=
  if list_eq_dec N.eq_dec a b then true else false.

Definition nl : char := 10%N.

(** Truth value of a list or string: not empty. *)
Definition nonempty {A : Type} (s : list A) : bool :=
  match s with [] => false | _ :: _ => true end.

(** [t[i:j]] *)
Definition slice (i j : nat) (t : str) : str := firstn (j - i) (skipn i t).

(** Unicode white space: what [\s] matches in a [str] pattern and what
    [str.strip()] removes. *)
Definition is_space (c : char) : bool :=
  ((9 <=? c) && (c <=? 13) || (28 <=? c) && (c <=? 32) ||
   (c =? 0x85) || (c =? 0xA0) || (c =? 0x1680) ||
   (0x2000 <=? c) && (c <=? 0x200A) ||
   (c =? 0x2028) || (c =? 0x2029) || (c =? 0x202F) || (c =? 0x205F) ||
   (c =? 0x3000))%N.

(** [.] without [re.DOTALL]: anything but a line feed. *)
Definition is_dot (c : char) : bool := negb (c =? 10)%N.

(** [[^}]] *)
Definition not_rbrace (c : char) : bool := negb (c =? 125)%N.

(** A pattern character under [re.IGNORECASE]: the character itself,
    the other case of an ASCII letter, and the code points whose simple
    case folding is that letter (U+017F for s, U+0130 and U+0131 for i,
    U+212A for k). *)
Definition ignorecase (p c : char) : bool :=
  ((c =? p) ||
   ((97 <=? p) && (p <=? 122) && (c =? p - 32)) ||
   ((65 <=? p) && (p <=? 90) && (c =? p + 32)) ||
   (((p =? 115) || (p =? 83)) && (c =? 0x17F)) ||
   (((p =? 105) || (p =? 73)) && ((c =? 0x130) || (c =? 0x131))) ||
   (((p =? 107) || (p =? 75)) && (c =? 0x212A)))%N.

(** ** Regular expressions

    The three patterns of the program only repeat single-character
    classes, so a pattern is a list of items.  [Rep cls lo] is the
    greedy [cls*] ([lo = 0]) or [cls+] ([lo = 1]); [Paren] stands where
    the pattern has a parenthesis and records the offset reached. *)

Inductive item : Type :=
| Chr (cls : char -> bool)
| Rep (cls : char -> bool) (lo : nat)
| Paren.

Definition regex := list item.

Definition chars (s : string) : regex := map (fun p => Chr (N.eqb p)) (lit s).
Definition chars_i (s : string) : regex := map (fun p => Chr (ignorecase p)) (lit s).

(** Length of the longest prefix of [t] inside the class. *)
Fixpoint span (cls : char -> bool) (t : str) : nat :=
  match t with
  | c :: t' => if cls c then S (span cls t') else 0
  | [] => 0
  end.

(** Backtracking over a greedy repetition: try [n], [n-1], ... down to
    [lo] repetitions and keep the first that lets the rest match. *)
Fixpoint backtrack {A : Type} (f : nat -> option A) (lo n : nat) : option A :=
  if n <? lo then None
  else match f n with
       | Some r => Some r
       | None => match n with
                 | 0 => None
                 | S n' => backtrack f lo n'
                 end
       end.

(** [re_match p pos t]: match [p] at the head of [t], which stands at
    offset [pos] of the attempt.  The result lists the offsets recorded
    at the parentheses, then the offset where the match ends. *)
Fixpoint re_match (p : regex) (pos : nat) (t : str) : option (list nat) :=
  match p with
  | [] => Some [pos]
  | Chr cls :: p' =>
      match t with
      | c :: t' => if cls c then re_match p' (S pos) t' else None
      | [] => None
      end
  | Rep cls lo :: p' =>
      backtrack (fun k => re_match p' (pos + k) (skipn k t)) lo (span cls t)
  | Paren :: p' =>
      match re_match p' pos t with
      | Some os => Some (pos :: os)
      | None => None
      end
  end.

(** A match object: the text from the start of the match on, and the
    offsets.  [group 0] is the whole match, [group k] the text between
    the k-th pair of parentheses. *)
Record rmatch : Type := { m_text : str; m_offs : list nat }.

Definition m_end (m : rmatch) : nat := last (m_offs m) 0.

Definition group (k : nat) (m : rmatch) : str :=
  match k with
  | 0 => firstn (m_end m) (m_text m)
  | S j => slice (nth (2 * j) (m_offs m) 0) (nth (2 * j + 1) (m_offs m) 0) (m_text m)
  end.

Definition match_at (p : regex) (t : str) : option rmatch :=
  match re_match p 0 t with
  | Some os => Some {| m_text := t; m_offs := os |}
  | None => None
  end.

(** [re.search]: the leftmost position where the pattern matches. *)
Fixpoint re_search (p : regex) (t : str) : option rmatch :=
  match match_at p t with
  | Some m => Some m
  | None => match t with
            | [] => None
            | _ :: t' => re_search p t'
            end
  end.

(** [re.sub] with a function as replacement: scan from the left, replace
    each match found and go on after it.  [skip] counts the characters
    of the last match that are still to be passed over. *)
Fixpoint re_sub_from (p : regex) (repl : rmatch -> str) (skip : nat) (t : str)
  {struct t} : str :=
  match skip, t with
  | S k, _ :: t' => re_sub_from p repl k t'
  | S _, [] => []
  | 0, _ =>
      match match_at p t with
      | Some m =>
          repl m ++
          match t with
          | [] => []
          | c :: t' =>
              match m_end m with
              | 0 => c :: re_sub_from p repl 0 t'
              | S k => re_sub_from p repl k t'
              end
          end
      | None =>
          match t with
          | [] => []
          | c :: t' => c :: re_sub_from p repl 0 t'
          end
      end
  end.

Definition re_sub (p : regex) (repl : rmatch -> str) (t : str) : str :=
  re_sub_from p repl 0 t.

(** The matches the scan of [re.sub] (and [re.finditer]) visits, each
    with its start offset. *)
Fixpoint re_finditer_from (p : regex) (skip pos : nat) (t : str)
  {struct t} : list (nat * rmatch) :=
  match skip, t with
  | S k, _ :: t' => re_finditer_from p k (S pos) t'
  | S _, [] => []
  | 0, _ =>
      match match_at p t with
      | Some m =>
          (pos, m) ::
          match t with
          | [] => []
          | _ :: t' =>
              match m_end m with
              | 0 => re_finditer_from p 0 (S pos) t'
              | S k => re_finditer_from p k (S pos) t'
              end
          end
      | None =>
          match t with
          | [] => []
          | _ :: t' => re_finditer_from p 0 (S pos) t'
          end
      end
  end.

Definition re_finditer (p : regex) (t : str) : list (nat * rmatch) :=
  re_finditer_from p 0 0 t.

(** ** str.split and str.strip *)

Fixpoint split (sep : char) (t : str) : list str :=
  match t with
  | [] => [[]]
  | c :: t' =>
      if (c =? sep)%N then [] :: split sep t'
      else match split sep t' with
           | h :: r => (c :: h) :: r
           | [] => [[c]]
           end
  end.

Fixpoint lstrip (t : str) : str :=
  match t with
  | c :: t' => if is_space c then lstrip t' else t
  | [] => []
  end.

Definition rstrip (t : str) : str := rev (lstrip (rev t)).
Definition strip (t : str) : str := rstrip (lstrip t).

(** ** parse_required_files *)

Definition comma : char := 44%N.

(** [user_files_regex]: a hash sign, [\s*], the word user_files and a colon,
    [\s*], then one group holding [.*]; searched with [re.IGNORECASE]. *)
Definition user_files_regex : regex :=
  chars_i "#" ++ [Rep is_space 0] ++ chars_i "user_files:" ++
  [Rep is_space 0; Paren; Rep is_dot 0; Paren].

(** [process_files_regex]: the same with the word process_files. *)
Definition process_files_regex : regex :=
  chars_i "#" ++ [Rep is_space 0] ++ chars_i "process_files:" ++
  [Rep is_space 0; Paren; Rep is_dot 0; Paren].

(** [[f.strip() for f in value.split(',') if f.strip()]] *)
Definition file_list (value : str) : list str :=
  map strip (filter (fun f => nonempty (strip f)) (split comma value)).

Definition files_of_match (m : option rmatch) : list str :=
  match m with
  | Some m => if nonempty (group 1 m) then file_list (group 1 m) else []
  | None => []
  end.

Definition parse_required_files (script_content : str) : list str * list str :=
  let user_files_match := re_search user_files_regex script_content in
  let process_files_match := re_search process_files_regex script_content in
  let user_files := files_of_match user_files_match in
  let process_files := files_of_match process_files_match in
  (user_files, process_files).

(** ** json.dumps

    The values the program serialises are strings, lists and
    dictionaries.  [dumps] is [json.dumps(v, indent=8)] with its
    defaults: [ensure_ascii], item separator [,] and key separator
    colon-space. *)

#[local] Unset Elimination Schemes.
Inductive json : Type :=
| JString (s : str)
| JArray (items : list json)
| JObject (members : list (str * json)).
#[local] Set Elimination Schemes.

Definition hex_digit (d : N) : char :=
  (if d <? 10 then 48 + d else 87 + d)%N.

(** [format(n, '04x')] for [n < 0x10000] *)
Definition hex4 (n : N) : str :=
  [hex_digit (n / 4096 mod 16); hex_digit (n / 256 mod 16);
   hex_digit (n / 16 mod 16); hex_digit (n mod 16)]%N.

Definition backslash : char := 92%N.
Definition dquote : char := 34%N.

Definition escape_char (c : char) : str :=
  (if c =? 34 then [backslash; dquote]
   else if c =? 92 then [backslash; backslash]
   else if c =? 10 then backslash :: lit "n"
   else if c =? 13 then backslash :: lit "r"
   else if c =? 9 then backslash :: lit "t"
   else if c =? 12 then backslash :: lit "f"
   else if c =? 8 then backslash :: lit "b"
   else if (32 <=? c) && (c <=? 126) then [c]
   else if c <? 0x10000 then backslash :: lit "u" ++ hex4 c
   else let n := c - 0x10000 in
        backslash :: lit "u" ++ hex4 (N.lor 0xD800 (N.land (N.shiftr n 10) 0x3FF)) ++
        backslash :: lit "u" ++ hex4 (N.lor 0xDC00 (N.land n 0x3FF)))%N.

Definition encode_basestring_ascii (s : str) : str :=
  dquote :: flat_map escape_char s ++ [dquote].

Definition newline_indent (level : nat) : str := nl :: repeat 32%N (8 * level).

Fixpoint dumps_level (level : nat) (v : json) : str :=
  match v with
  | JString s => encode_basestring_ascii s
  | JArray [] => lit "[]"
  | JArray (x :: xs) =>
      lit "[" ++ newline_indent (S level) ++ dumps_level (S level) x ++
      (fix rest (l : list json) : str :=
         match l with
         | [] => []
         | y :: l' =>
             lit "," ++ newline_indent (S level) ++ dumps_level (S level) y ++ rest l'
         end) xs ++
      newline_indent level ++ lit "]"
  | JObject [] => lit "{}"
  | JObject ((k, x) :: ms) =>
      lit "{" ++ newline_indent (S level) ++
      encode_basestring_ascii k ++ lit ": " ++ dumps_level (S level) x ++
      (fix rest (l : list (str * json)) : str :=
         match l with
         | [] => []
         | (k', y) :: l' =>
             lit "," ++ newline_indent (S level) ++
             encode_basestring_ascii k' ++ lit ": " ++ dumps_level (S level) y ++ rest l'
         end) ms ++
      newline_indent level ++ lit "}"
  end.

Definition dumps (v : json) : str := dumps_level 0 v.

(** ** The script records *)

Record script_info : Type := {
  name : str;
  content_b64 : str;
  userFiles : list str;
  processFiles : list str
}.

Definition json_of_script (s : script_info) : json :=
  JObject [ (lit "name", JString (name s));
            (lit "content_b64", JString (content_b64 s));
            (lit "userFiles", JArray (map JString (userFiles s)));
            (lit "processFiles", JArray (map JString (processFiles s))) ].

Definition json_of_scripts (scripts : list script_info) : json :=
  JArray (map json_of_script scripts).

(** ** create_embedded_browserbox: the text it builds *)

Fixpoint join_lines (ls : list string) : str :=
  match ls with
  | [] => []
  | [l] => lit l
  | l :: ls' => lit l ++ nl :: join_lines ls'
  end.

(** [scripts_js] *)
Definition scripts_js (scripts : list script_info) : str :=
  lit "const embeddedScripts = " ++ dumps (json_of_scripts scripts) ++ lit ";".

(** [decoder_function]: the literal opens with a line feed. *)
Definition decoder_function : str :=
  nl :: join_lines [
    "        // Function to decode base64 embedded scripts";
    "        function loadEmbeddedScripts() {";
    "            if (typeof embeddedScripts === 'undefined' || embeddedScripts.length === 0) {";
    "                return;";
    "            }";
    "            ";
    "            log(`Loading ${embeddedScripts.length} embedded Python script(s)...`);";
    "            ";
    "            embeddedScripts.forEach(scriptData => {";
    "                try {";
    "                    // Decode base64 content";
    "                    const content = atob(scriptData.content_b64);";
    "                    ";
    "                    // Create a File-like object for the script";
    "                    const blob = new Blob([content], { type: 'text/plain' });";
    "                    const file = new File([blob], scriptData.name, { ";
    "                        lastModified: new Date().getTime() ";
    "                    });";
    "                    ";
    "                    // Add to pythonScripts array if not already present";
    "                    if (!pythonScripts.some(ps => ps.name === scriptData.name)) {";
    "                        const newScript = {";
    "                            name: scriptData.name,";
    "                            content: content,";
    "                            userFiles: scriptData.userFiles || [],";
    "                            processFiles: scriptData.processFiles || [],";
    "                            fileObject: file,";
    "                            id: `py-${scriptData.name.replace(/[^a-zA-Z0-9]/g, '-')}`";
    "                        };";
    "                        pythonScripts.push(newScript);";
    "                        log(`Loaded embedded script: ${scriptData.name} (User files: ${newScript.userFiles.join(', ') || 'none'}, Process files: ${newScript.processFiles.join(', ') || 'none'})`);";
    "                    }";
    "                } catch (error) {";
    "                    log(`Error loading embedded script ${scriptData.name}: ${error.message}`, 'error');";
    "                }";
    "            });";
    "            ";
    "            // Sort scripts and update UI";
    "            pythonScripts.sort((a, b) => a.name.localeCompare(b.name));";
    "            updateScriptsList();";
    "            updateFileDropZone();";
    "            updateRunButtonState();";
    "            ";
    "            // Hide script zone instructions since we have scripts";
    "            const scriptZoneInstructions = document.getElementById('scriptZoneInstructions');";
    "            if (scriptZoneInstructions) {";
    "                scriptZoneInstructions.style.display = 'none';";
    "            }";
    "        }"
  ]%string.

(** [init_function_pattern]: group 1 is the opening of [function init]
    followed by the longest run without a closing brace that still
    leaves the log statement, group 2 the log statement. *)
Definition init_open : string := "function init() {".
Definition init_log : string := "log('App initialized and ready');".

Definition init_function_pattern : regex :=
  [Paren] ++ chars init_open ++ [Rep not_rbrace 0; Paren] ++
  [Paren] ++ chars init_log ++ [Paren].

Definition loader_call : str :=
  lit "loadEmbeddedScripts();" ++ nl :: lit "            ".

Definition replace_init (m : rmatch) : str :=
  let before_log := group 1 m in
  let log_line := group 2 m in
  before_log ++ loader_call ++ log_line.

(** [script_end_pattern]: group 1 is the start-the-app comment, [\s+],
    the call of [init], [\s+]; group 2 is the closing script tag behind
    four blanks.  The flags MULTILINE and DOTALL change nothing for a
    pattern without dot, caret or dollar. *)
Definition end_start : string := "        // Start the app".
Definition end_init : string := "init();".
Definition end_tag : string := "    </script>".

Definition script_end_pattern : regex :=
  [Paren] ++ chars end_start ++ [Rep is_space 1] ++
  chars end_init ++ [Rep is_space 1; Paren] ++
  [Paren] ++ chars end_tag ++ [Paren].

(** The text [insert_embedded_code] puts in front of the two groups. *)
Definition embedded_block (scripts : list script_info) : str :=
  lit "        // Embedded Python Scripts Data" ++ nl ::
  lit "        " ++ scripts_js scripts ++ nl :: nl ::
  decoder_function ++ nl :: nl ::
  lit "        ".

Definition insert_embedded_code (scripts : list script_info) (m : rmatch) : str :=
  let before_script_end := group 1 m in
  let script_closing := group 2 m in
  embedded_block scripts ++ before_script_end ++ script_closing.

(** The two substitutions of [create_embedded_browserbox], in the order
    the program applies them. *)
Definition embed_block (scripts : list script_info) (html_content : str) : str :=
  re_sub script_end_pattern (insert_embedded_code scripts) html_content.

Definition embed_call (html_content : str) : str :=
  re_sub init_function_pattern replace_init html_content.

Definition patched_html (scripts : list script_info) (html_content : str) : str :=
  embed_call (embed_block scripts html_content).

(** ** The encoder: str.encode('utf-8') and base64.b64encode *)

Definition byte := N.

(** The UTF-8 bytes of one code point; [None] is the UnicodeEncodeError
    Python raises for a surrogate. *)
Definition utf8_char (c : char) : option (list byte) :=
  (if c <? 0x80 then Some [c]
   else if c <? 0x800 then Some [0xC0 + c / 64; 0x80 + c mod 64]
   else if (0xD800 <=? c) && (c <=? 0xDFFF) then None
   else if c <? 0x10000 then
     Some [0xE0 + c / 4096; 0x80 + (c / 64) mod 64; 0x80 + c mod 64]
   else if c <? 0x110000 then
     Some [0xF0 + c / 262144; 0x80 + (c / 4096) mod 64;
           0x80 + (c / 64) mod 64; 0x80 + c mod 64]
   else None)%N.

Fixpoint utf8_encode (s : str) : option (list byte) :=
  match s with
  | [] => Some []
  | c :: s' =>
      match utf8_char c, utf8_encode s' with
      | Some bs, Some r => Some (bs ++ r)
      | _, _ => None
      end
  end.

Definition b64_alphabet : str :=
  lit "ABCDEFGHIJKLMNOPQRSTUVWXYZabcdefghijklmnopqrstuvwxyz0123456789+/".

Definition b64_char (i : N) : char := nth (N.to_nat i) b64_alphabet 0%N.

Definition b64_pad : char := 61%N.

Fixpoint b64encode (bs : list byte) : str :=
  match bs with
  | a :: b :: c :: rest =>
      b64_char (a / 4) :: b64_char ((a mod 4) * 16 + b / 16) ::
      b64_char ((b mod 16) * 4 + c / 64) :: b64_char (c mod 64) ::
      b64encode rest
  | [a; b] =>
      [b64_char (a / 4); b64_char ((a mod 4) * 16 + b / 16);
       b64_char ((b mod 16) * 4); b64_pad]
  | [a] => [b64_char (a / 4); b64_char ((a mod 4) * 16); b64_pad; b64_pad]
  | [] => []
  end%N.

(** Line 48: [base64.b64encode(content.encode('utf-8')).decode('ascii')];
    the base64 alphabet is ASCII, so only the first step can raise. *)
Definition encode_content (content : str) : option str :=
  match utf8_encode content with
  | Some bs => Some (b64encode bs)
  | None => None
  end.

(** ** The decoder

    The inverse steps: base64 decoding (what [atob] does in the loader
    routine) and UTF-8 decoding.  Both are strict. *)

Definition b64_index (c : char) : option N :=
  (if (65 <=? c) && (c <=? 90) then Some (c - 65)
   else if (97 <=? c) && (c <=? 122) then Some (c - 71)
   else if (48 <=? c) && (c <=? 57) then Some (c + 4)
   else if c =? 43 then Some 62
   else if c =? 47 then Some 63
   else None)%N.

Definition b64_quad (c0 c1 c2 c3 : char) : option (list byte) :=
  match b64_index c0, b64_index c1, b64_index c2, b64_index c3 with
  | Some i0, Some i1, Some i2, Some i3 =>
      Some [i0 * 4 + i1 / 16; (i1 mod 16) * 16 + i2 / 4; (i2 mod 4) * 64 + i3]%N
  | _, _, _, _ => None
  end.

Definition b64_last (c0 c1 c2 c3 : char) : option (list byte) :=
  if (c2 =? b64_pad)%N then
    match b64_index c0, b64_index c1 with
    | Some i0, Some i1 =>
        if (i1 mod 16 =? 0)%N then Some [i0 * 4 + i1 / 16]%N else None
    | _, _ => None
    end
  else
    match b64_index c0, b64_index c1, b64_index c2 with
    | Some i0, Some i1, Some i2 =>
        if (i2 mod 4 =? 0)%N
        then Some [i0 * 4 + i1 / 16; (i1 mod 16) * 16 + i2 / 4]%N else None
    | _, _, _ => None
    end.

Fixpoint b64decode (s : str) : option (list byte) :=
  match s with
  | [] => Some []
  | c0 :: c1 :: c2 :: c3 :: rest =>
      if (c3 =? b64_pad)%N then
        match rest with
        | [] => b64_last c0 c1 c2 c3
        | _ :: _ => None
        end
      else
        match b64_quad c0 c1 c2 c3, b64decode rest with
        | Some bs, Some r => Some (bs ++ r)
        | _, _ => None
        end
  | _ => None
  end.

Definition is_cont (b : byte) : bool := ((0x80 <=? b) && (b <=? 0xBF))%N.

Fixpoint utf8_decode (bs : list byte) : option str :=
  match bs with
  | [] => Some []
  | b0 :: r0 =>
      if (b0 <? 0x80)%N then option_map (cons b0) (utf8_decode r0)
      else if ((0xC0 <=? b0) && (b0 <? 0xE0))%N then
        match r0 with
        | b1 :: r1 =>
            let c := ((b0 - 0xC0) * 64 + (b1 - 0x80))%N in
            if is_cont b1 && (0x80 <=? c)%N
            then option_map (cons c) (utf8_decode r1) else None
        | _ => None
        end
      else if ((0xE0 <=? b0) && (b0 <? 0xF0))%N then
        match r0 with
        | b1 :: b2 :: r2 =>
            let c := ((b0 - 0xE0) * 4096 + (b1 - 0x80) * 64 + (b2 - 0x80))%N in
            if is_cont b1 && is_cont b2 && (0x800 <=? c)%N &&
               negb ((0xD800 <=? c) && (c <=? 0xDFFF))%N
            then option_map (cons c) (utf8_decode r2) else None
        | _ => None
        end
      else if ((0xF0 <=? b0) && (b0 <? 0xF8))%N then
        match r0 with
        | b1 :: b2 :: b3 :: r3 =>
            let c := ((b0 - 0xF0) * 262144 + (b1 - 0x80) * 4096 +
                      (b2 - 0x80) * 64 + (b3 - 0x80))%N in
            if is_cont b1 && is_cont b2 && is_cont b3 &&
               (0x10000 <=? c)%N && (c <? 0x110000)%N
            then option_map (cons c) (utf8_decode r3) else None
        | _ => None
        end
      else None
  end.

Definition decode_content (encoded : str) : option str :=
  match b64decode encoded with
  | Some bs => utf8_decode bs
  | None => None
  end.

(** A code point of valid text: a Unicode scalar value.  Text read from
    a file with [encoding='utf-8'] holds nothing else. *)
Definition scalar_value (c : char) : Prop :=
  (c < 0xD800 \/ 0xDFFF < c < 0x110000)%N.

Definition valid_text (s : str) : Prop := Forall scalar_value s.

(** ** The working directory and the effects of a run

    The working directory is the list of its entries in the order the
    file system enumerates them.  A regular file carries what reading it
    as UTF-8 text gives: [Some text], or [None] when the read raises
    (no permission, bytes that are not UTF-8).  A path is the plain name
    of an entry.  Of the ways in which opening a path for writing can
    fail one is modelled, the path being a directory; a missing write
    permission, a missing parent directory and a full disk are not, so
    a statement that concludes that the output was written does so for
    a directory in which none of these occurs.  Printing never
    raises. *)

Inductive node : Type :=
| File (content : option str)
| Dir.

Definition directory := list (str * node).

Fixpoint lookup (path : str) (d : directory) : option node :=
  match d with
  | [] => None
  | (n, x) :: d' => if str_eqb n path then Some x else lookup path d'
  end.

Fixpoint store (path : str) (x : node) (d : directory) : directory :=
  match d with
  | [] => [(path, x)]
  | (n, y) :: d' => if str_eqb n path then (n, x) :: d' else (n, y) :: store path x d'
  end.

Inductive exn : Type :=
| ReadError (path : str)
| EncodeError
| WriteError (path : str).

(** The lines the program prints, by the statement that prints them. *)
Inductive message : Type :=
| MsgCollected (name : str) (user_files process_files : list str)
| MsgErrorReading (path : str) (e : exn)
| MsgCreated (output_file : str) (count : nat)
| MsgNotFound
| MsgNoScripts
| MsgSuccess (output_file : str)
| MsgScript (name : str)
| MsgOpenInBrowser (output_file : str).

Inductive event : Type :=
| EvExists (path : str)
| EvGlob
| EvRead (path : str)
| EvWrite (path : str) (text : str)
| EvPrint (m : message).

Inductive result (A : Type) : Type :=
| Ok (a : A)
| Raise (e : exn).
Arguments Ok {A} a.
Arguments Raise {A} e.

(** What a computation leaves behind: the events in the order they
    happened, the directory, and a value or an exception. *)
Record run (A : Type) : Type := {
  events : list event;
  final : directory;
  value : result A
}.
Arguments events {A} r.
Arguments final {A} r.
Arguments value {A} r.

Definition M (A : Type) : Type := directory -> run A.

Definition ret {A} (a : A) : M A :=
  fun d => {| events := []; final := d; value := Ok a |}.

Definition bind {A B} (m : M A) (f : A -> M B) : M B :=
  fun d =>
    let r := m d in
    match value r with
    | Ok a =>
        let r' := f a (final r) in
        {| events := events r ++ events r'; final := final r'; value := value r' |}
    | Raise e => {| events := events r; final := final r; value := Raise e |}
    end.

(** [try: m except Exception as e: h e] *)
Definition try {A} (m : M A) (h : exn -> M A) : M A :=
  fun d =>
    let r := m d in
    match value r with
    | Ok a => r
    | Raise e =>
        let r' := h e (final r) in
        {| events := events r ++ events r'; final := final r'; value := value r' |}
    end.

Definition raise {A} (e : exn) : M A :=
  fun d => {| events := []; final := d; value := Raise e |}.

Declare Scope m_scope.
Delimit Scope m_scope with M.
Notation "x <- m ;; k" := (bind m (fun x => k))
  (at level 61, m at next level, right associativity) : m_scope.
Notation "m ;; k" := (bind m (fun _ => k))
  (at level 61, right associativity) : m_scope.
Local Open Scope m_scope.

Definition emit (e : event) : M unit :=
  fun d => {| events := [e]; final := d; value := Ok tt |}.

Definition print (m : message) : M unit := emit (EvPrint m).

(** [os.path.exists] *)
Definition path_exists (path : str) : M bool :=
  fun d => {| events := [EvExists path]; final := d;
              value := Ok (match lookup path d with Some _ => true | None => false end) |}.

Definition endswith (s suffix : str) : bool :=
  str_eqb (skipn (length s - length suffix) s) suffix.

(** [Path('.').glob(pattern)] for a pattern that is a star and a
    suffix: the entries whose name ends with the suffix. *)
Definition glob (suffix : str) : M (list str) :=
  fun d => {| events := [EvGlob]; final := d;
              value := Ok (filter (fun n => endswith n suffix) (map fst d)) |}.

(** [open(path, 'r', encoding='utf-8')] and [f.read()] *)
Definition read_text (path : str) : M str :=
  fun d =>
    {| events := [EvRead path]; final := d;
       value := match lookup path d with
                | Some (File (Some text)) => Ok text
                | _ => Raise (ReadError path)
                end |}.

(** [open(path, 'w', encoding='utf-8')] and [f.write(text)] *)
Definition write_text (path text : str) : M unit :=
  fun d =>
    match lookup path d with
    | Some Dir => {| events := []; final := d; value := Raise (WriteError path) |}
    | _ => {| events := [EvWrite path text];
              final := store path (File (Some text)) d; value := Ok tt |}
    end.

Definition b64_of_content (content : str) : M str :=
  match encode_content content with
  | Some e => ret e
  | None => raise EncodeError
  end.

(** ** collect_python_scripts *)

Definition own_name : str := lit "embed_scripts.py".

(** The body of the [try] statement for one file; [scripts] is the list
    built so far. *)
Definition collect_one (file_path : str) (scripts : list script_info)
  : M (list script_info) :=
  content <- read_text file_path ;;
  let (user_files, process_files) := parse_required_files content in
  content_b64 <- b64_of_content content ;;
  let script_info :=
    {| name := file_path; content_b64 := content_b64;
       userFiles := user_files; processFiles := process_files |} in
  print (MsgCollected file_path user_files process_files) ;;
  ret (scripts ++ [script_info]).

Fixpoint collect_loop (paths : list str) (scripts : list script_info)
  : M (list script_info) :=
  match paths with
  | [] => ret scripts
  | file_path :: paths' =>
      if str_eqb file_path own_name then collect_loop paths' scripts
      else
        scripts' <- try (collect_one file_path scripts)
                        (fun e => print (MsgErrorReading file_path e) ;; ret scripts) ;;
        collect_loop paths' scripts'
  end.

Definition collect_python_scripts : M (list script_info) :=
  paths <- glob (lit ".py") ;;
  collect_loop paths [].

(** ** create_embedded_browserbox *)

Definition create_embedded_browserbox (scripts : list script_info)
  (input_file output_file : str) : M str :=
  html_content <- read_text input_file ;;
  let html_content := embed_block scripts html_content in
  let html_content := embed_call html_content in
  write_text output_file html_content ;;
  print (MsgCreated output_file (length scripts)) ;;
  ret output_file.

(** ** main *)

Definition input_name : str := lit "BrowserBox.html".
Definition output_name : str := lit "BrowserBox_with_scripts.html".

Fixpoint print_names (scripts : list script_info) : M unit :=
  match scripts with
  | [] => ret tt
  | script :: scripts' => print (MsgScript (name script)) ;; print_names scripts'
  end.

Definition main : M unit :=
  found <- path_exists input_name ;;
  if negb found then print MsgNotFound
  else
    scripts <- collect_python_scripts ;;
    if negb (nonempty scripts) then print MsgNoScripts
    else
      output_file <- create_embedded_browserbox scripts input_name output_name ;;
      print (MsgSuccess output_file) ;;
      print_names scripts ;;
      print (MsgOpenInBrowser output_file).

(** Projections of a run. *)
Definition printed {A} (r : run A) : list message :=
  flat_map (fun e => match e with EvPrint m => [m] | _ => [] end) (events r).

Definition reads {A} (r : run A) : list str :=
  flat_map (fun e => match e with EvRead p => [p] | _ => [] end) (events r).

Definition writes {A} (r : run A) : list (str * str) :=
  flat_map (fun e => match e with EvWrite p t => [(p, t)] | _ => [] end) (events r).

(** ** Notions used in the statements *)

(** *** Anchors and insertions *)

Definition offsets_init (a q b : str) : list nat :=
  [0; length a + length q; length a + length q;
   length a + length q + length b; length a + length q + length b].

Definition rbrace : char := 125%N.

(** [t] with [ins] put in at offset [i]; nothing of [t] is lost or
    changed. *)
Definition insertion (i : nat) (ins t : str) : str :=
  firstn i t ++ ins ++ skipn i t.

Fixpoint is_prefix (a t : str) : bool :=
  match a, t with
  | [], _ => true
  | x :: a', y :: t' => (x =? y)%N && is_prefix a' t'
  | _ :: _, [] => false
  end.

(** Number of offsets of [t] at which the text [needle] stands. *)
Fixpoint occurrences (needle t : str) : nat :=
  (if is_prefix needle t then 1 else 0) +
  match t with
  | [] => 0
  | _ :: t' => occurrences needle t'
  end.

Definition data_declaration : str := lit "const embeddedScripts = ".
Definition loader_body : str := lit "function loadEmbeddedScripts() {".
Definition loader_invocation : str := lit "loadEmbeddedScripts();".

(** *** Marker comments *)

Definition hash : char := 35%N.

(** Both marker patterns are instances of one shape. *)
Definition marker_regex (word : string) : regex :=
  chars_i "#" ++ [Rep is_space 0] ++ chars_i word ++
  [Rep is_space 0; Paren; Rep is_dot 0; Paren].

(** [w] is [l] up to letter case. *)
Definition same_word (l w : str) : Prop :=
  Forall2 (fun p c => ignorecase p c = true) l w.

Definition starts_with_no_space (t : str) : Prop :=
  match t with c :: _ => is_space c = false | [] => True end.

Definition ends_line (rest : str) : Prop :=
  match rest with c :: _ => c = nl | [] => True end.

(** A token of a file list: not empty, no white space at either end. *)
Definition token (t : str) : Prop :=
  t <> [] /\ starts_with_no_space t /\ starts_with_no_space (rev t).

(** *** Bytes and valid text *)

Definition is_byte (b : byte) : Prop := (b < 256)%N.

Definition is_scalar (c : char) : bool :=
  ((c <? 0xD800) || (0xDFFF <? c) && (c <? 0x110000))%N.

(** *** What the collection loop does with a directory *)

Definition is_script_name (n : str) : bool := endswith n (lit ".py").
Definition not_own (n : str) : bool := negb (str_eqb n own_name).

(** The entries the loop works on: the names the glob yields, without
    the program's own file, in enumeration order. *)
Definition candidates (d : directory) : list str :=
  filter not_own (filter is_script_name (map fst d)).

(** What reading a file gives. *)
Definition text_of (d : directory) (path : str) : option str :=
  match lookup path d with
  | Some (File (Some content)) => Some content
  | _ => None
  end.

Definition readable (d : directory) (path : str) : bool :=
  match text_of d path with Some _ => true | None => false end.

(** The record of a file, when the body of the [try] runs through. *)
Definition record_of (d : directory) (path : str) : option script_info :=
  match text_of d path with
  | Some content =>
      match encode_content content with
      | Some b64 =>
          Some {| name := path; content_b64 := b64;
                  userFiles := fst (parse_required_files content);
                  processFiles := snd (parse_required_files content) |}
      | None => None
      end
  | None => None
  end.

(** The line printed for a file. *)
Definition report (d : directory) (path : str) : message :=
  match record_of d path with
  | Some r => MsgCollected path (userFiles r) (processFiles r)
  | None =>
      MsgErrorReading path
        (match text_of d path with Some _ => EncodeError | None => ReadError path end)
  end.

Definition records_of (d : directory) (paths : list str) : list script_info :=
  flat_map (fun n => match record_of d n with Some r => [r] | None => [] end) paths.

(** Every text in the directory is valid text, as UTF-8 decoding
    produces it. *)
Definition directory_valid (d : directory) : Prop :=
  forall path content, text_of d path = Some content -> valid_text content.

Definition scan_events (d : directory) : list event :=
  EvExists input_name :: EvGlob ::
  flat_map (fun n => [EvRead n; EvPrint (report d n)]) (candidates d).

Definition closing_events (scripts : list script_info) (out : str) : list event :=
  EvPrint (MsgSuccess out) ::
  map (fun s => EvPrint (MsgScript (name s))) scripts ++
  [EvPrint (MsgOpenInBrowser out)].


(** What a run takes from the directory: the script entries with what
    they hold, in enumeration order; the target document; and whether
    the output path is a directory. *)
Definition scripts_view (d : directory) : list (str * option node) :=
  map (fun n => (n, lookup n d)) (candidates d).

Definition same_inputs (d1 d2 : directory) : Prop :=
  scripts_view d1 = scripts_view d2 /\
  lookup input_name d1 = lookup input_name d2 /\
  (lookup output_name d1 = Some Dir <-> lookup output_name d2 = Some Dir).

(** *** Sample inputs *)

Definition sample_scripts : list script_info :=
  [ {| name := lit "a.py"; content_b64 := lit "cGFzcw==";
       userFiles := [lit "in.csv"]; processFiles := [] |} ].

(** A document of the expected layout. *)
Definition plain_doc : str :=
  lit "<script>function init() { setup(); log('App initialized and ready'); }" ++ nl ::
  lit "        // Start the app" ++ nl ::
  lit "        init();" ++ nl ::
  lit "    </script></body>".

(** A document whose script-end anchor stands between the opening of
    the init function and its log statement. *)
Definition enclosed_doc : str :=
  lit "function init() {" ++
  lit "        // Start the app" ++ nl :: lit "init();" ++ nl :: lit "    </script>" ++
  lit "log('App initialized and ready');".

(** A document with neither anchor. *)
Definition bare_doc : str := lit "<html><body>no script here</body></html>".

(** A script that declares no user files and one process file. *)
Definition empty_marker_text : str :=
  lit "# user_files:" ++ nl :: lit "# process_files: data.csv" ++ nl ::
  lit "print(1)" ++ [nl].

Definition dir_without_document : directory :=
  [ (lit "a.py", File (Some (lit "pass")));
    (lit "README.md", File (Some (lit "read me"))) ].

Definition dir_without_scripts : directory :=
  [ (lit "embed_scripts.py", File (Some (lit "import os")));
    (lit "BrowserBox.html", File (Some plain_doc));
    (lit "notes.txt", File (Some (lit "hello"))) ].

Definition dir_mixed : directory :=
  [ (lit "notes.txt", File (Some (lit "hello")));
    (lit "b.py", File (Some (lit "# user_files: in.csv" ++ nl :: lit "print(1)")));
    (lit "embed_scripts.py", File (Some (lit "import os")));
    (lit "bad.py", File None);
    (lit "pkg.py", Dir);
    (lit "a.py", File (Some (lit "pass")));
    (lit "BrowserBox.html", File (Some plain_doc)) ].


(** A script whose user-files comment carries the text of the init
    anchor, and a document that holds the script-end anchor only. *)
Definition crafted_scripts : list script_info :=
  [ {| name := lit "a.py"; content_b64 := lit "cGFzcw==";
       userFiles := [lit "function init() {log('App initialized and ready');"];
       processFiles := [] |} ].

Definition doc_without_init : str :=
  lit "<script>" ++ nl :: lit "        // Start the app" ++ nl ::
  lit "        init();" ++ nl :: lit "    </script>".

Definition dir_bare : directory :=
  [ (lit "a.py", File (Some (lit "pass")));
    (lit "BrowserBox.html", File (Some bare_doc)) ].

(** *** Texts inside texts *)

(** [subseq s l]: [l] is [s] with characters put in; every character of
    [s] is in [l], in order. *)
Inductive subseq {A : Type} : list A -> list A -> Prop :=
| subseq_nil : forall l, subseq [] l
| subseq_skip : forall x s l, subseq s l -> subseq s (x :: l)
| subseq_take : forall x s l, subseq s l -> subseq (x :: s) (x :: l).

(** *** Characters of the output *)

(** A character of the base64 alphabet, or the padding sign. *)
Definition b64_symbol (c : char) : bool :=
  match b64_index c with Some _ => true | None => (c =? b64_pad)%N end.

(** A printable ASCII character or a line feed. *)
Definition ascii_out (c : char) : bool :=
  ((32 <=? c) && (c <=? 126) || (c =? 10))%N.

Definition is_ascii (c : char) : bool := (c <? 128)%N.

(** *** Further sample directories *)

(** BrowserBox.html exists but is a directory. *)
Definition dir_document_is_dir : directory :=
  [ (lit "a.py", File (Some (lit "pass")));
    (lit "BrowserBox.html", Dir) ].

(** Scripts exist, none of them can be read. *)
Definition dir_unreadable_scripts : directory :=
  [ (lit "bad.py", File None);
    (lit "pkg.py", Dir);
    (lit "BrowserBox.html", File (Some plain_doc)) ].

(** *** Directories of the counterexamples *)





(** * Properties *)

(** ** Sample evaluations *)

Example parse_ex1 :
  parse_required_files (lit "x = 1 #  USER_files:  a.csv , b.txt,, " ++ [nl] ++ lit "#process_files:c")
  = ([lit "a.csv"; lit "b.txt"], [lit "c"]).
Proof. vm_compute. reflexivity. Qed.

Example encode_ex : encode_content (lit "x = 1" ++ [233; 0x20AC; 0x1F600]%N)
                    = Some (lit "eCA9IDHDqeKCrPCfmIA=").
Proof. vm_compute. reflexivity. Qed.

Example decode_ex : decode_content (lit "eCA9IDHDqeKCrPCfmIA=")
                    = Some (lit "x = 1" ++ [233; 0x20AC; 0x1F600]%N).
Proof. vm_compute. reflexivity. Qed.

(** ** Lists *)

Lemma skipn_skipn_add {A} (i j : nat) (l : list A) :
  skipn i (skipn j l) = skipn (j + i) l.
Proof.
  revert l; induction j as [|j IH]; intros l; simpl; [reflexivity|].
  destruct l as [|x l]; simpl; [now rewrite skipn_nil | apply IH].
Qed.

Lemma skipn_app_length {A} (p s : list A) : skipn (length p) (p ++ s) = s.
Proof. induction p; simpl; auto. Qed.

Lemma firstn_app_length {A} (p s : list A) : firstn (length p) (p ++ s) = p.
Proof. induction p; simpl; congruence. Qed.

Lemma str_eqb_eq (a b : str) : str_eqb a b = true <-> a = b.
Proof. unfold str_eqb; destruct (list_eq_dec N.eq_dec a b); split; congruence. Qed.

Lemma str_eqb_neq (a b : str) : str_eqb a b = false <-> a <> b.
Proof. unfold str_eqb; destruct (list_eq_dec N.eq_dec a b); split; congruence. Qed.

(** ** The regular-expression engine *)

Section Engine.

Variable p : regex.

Lemma span_le cls (t : str) : span cls t <= length t.
Proof. induction t as [|c t IH]; simpl; [lia|]. destruct (cls c); simpl; lia. Qed.

Lemma span_firstn cls (t : str) k :
  k <= span cls t -> forallb cls (firstn k t) = true.
Proof.
  revert k; induction t as [|c t IH]; intros k Hk; simpl in *.
  - now rewrite firstn_nil.
  - destruct k as [|k]; [reflexivity|]. simpl.
    destruct (cls c); [|lia]. simpl. apply IH. lia.
Qed.

Lemma span_app cls (q s : str) :
  forallb cls q = true -> length q <= span cls (q ++ s).
Proof.
  induction q as [|c q IH]; simpl; intros H; [lia|].
  apply andb_true_iff in H as [Hc Hq]. rewrite Hc. specialize (IH Hq). lia.
Qed.

Lemma backtrack_none {A} (f : nat -> option A) lo n :
  backtrack f lo n = None <-> (forall k, lo <= k <= n -> f k = None).
Proof.
  induction n as [|n IH]; simpl.
  - destruct (Nat.ltb_spec 0 lo).
    + split; [intros _ k Hk; lia | auto].
    + destruct (f 0) eqn:E.
      * split; [discriminate|]. intros H0. rewrite <- E. apply H0. lia.
      * split; [|auto]. intros _ k Hk. assert (k = 0) by lia. now subst.
  - destruct (Nat.ltb_spec (S n) lo).
    + split; [intros _ k Hk; lia | auto].
    + destruct (f (S n)) eqn:E.
      * split; [discriminate|]. intros H0. rewrite <- E. apply H0. lia.
      * rewrite IH. split; intros H0 k Hk.
        -- destruct (Nat.eq_dec k (S n)); [now subst | apply H0; lia].
        -- apply H0. lia.
Qed.

Lemma backtrack_some {A} (f : nat -> option A) lo n r :
  backtrack f lo n = Some r ->
  exists k, lo <= k <= n /\ f k = Some r /\ (forall j, k < j <= n -> f j = None).
Proof.
  induction n as [|n IH]; simpl.
  - destruct (Nat.ltb_spec 0 lo); [discriminate|].
    destruct (f 0) eqn:E; [|discriminate].
    intros [= <-]. exists 0. split; [lia|]. split; [exact E|]. intros j Hj; lia.
  - destruct (Nat.ltb_spec (S n) lo); [discriminate|].
    destruct (f (S n)) eqn:E.
    + intros [= <-]. exists (S n). split; [lia|]. split; [exact E|].
      intros j Hj; lia.
    + intros Hb. destruct (IH Hb) as (k & Hk & Hf & Hgt).
      exists k. split; [lia|]. split; [exact Hf|].
      intros j Hj. destruct (Nat.eq_dec j (S n)); [now subst | apply Hgt; lia].
Qed.

(** A run of literal characters at the head of a pattern. *)
Lemma re_match_chars (l : str) (q : regex) pos (u : str) :
  re_match (map (fun c => Chr (N.eqb c)) l ++ q) pos (l ++ u)
  = re_match q (pos + length l) u.
Proof.
  revert pos; induction l as [|c l IH]; intros pos; simpl.
  - now rewrite Nat.add_0_r.
  - rewrite N.eqb_refl, IH. f_equal. lia.
Qed.

Lemma re_match_chars_inv (l : str) (q : regex) pos (t : str) os :
  re_match (map (fun c => Chr (N.eqb c)) l ++ q) pos t = Some os ->
  exists u, t = l ++ u /\ re_match q (pos + length l) u = Some os.
Proof.
  revert pos t; induction l as [|c l IH]; intros pos t; simpl.
  - intros H. exists t. now rewrite Nat.add_0_r.
  - destruct t as [|x t]; [discriminate|].
    destruct (N.eqb_spec c x) as [->|]; [|discriminate].
    intros H. destruct (IH _ _ H) as (u & -> & Hu).
    exists u. split; [reflexivity|]. rewrite <- Hu. f_equal. lia.
Qed.

Lemma match_at_text (t : str) m : match_at p t = Some m -> m_text m = t.
Proof.
  unfold match_at. destruct (re_match p 0 t); [|discriminate].
  now intros [= <-].
Qed.

(** [re.search] finds nothing exactly when no position matches. *)
Lemma re_search_none (t : str) :
  re_search p t = None <-> (forall i, match_at p (skipn i t) = None).
Proof.
  induction t as [|c t IH]; simpl.
  - destruct (match_at p []) eqn:E.
    + split; [discriminate|]. intros H. specialize (H 0). simpl in H. congruence.
    + split; [|auto]. intros _ i. now rewrite skipn_nil.
  - destruct (match_at p (c :: t)) eqn:E.
    + split; [discriminate|]. intros H. specialize (H 0). simpl in H. congruence.
    + rewrite IH. split; intros H i.
      * destruct i as [|i]; [exact E | apply H].
      * apply (H (S i)).
Qed.

(** The scan visits no match exactly when [re.search] finds none. *)
Lemma re_finditer_nil pos (t : str) :
  re_finditer_from p 0 pos t = [] <-> re_search p t = None.
Proof.
  revert pos; induction t as [|c t IH]; intros pos; simpl.
  - destruct (match_at p []); split; (discriminate || auto).
  - destruct (match_at p (c :: t)); [split; discriminate|]. apply IH.
Qed.

Variable repl : rmatch -> str.

(** Where the scan visits no match the text is copied. *)
Lemma re_sub_from_nil skip pos (t : str) :
  re_finditer_from p skip pos t = [] -> re_sub_from p repl skip t = skipn skip t.
Proof.
  revert skip pos; induction t as [|c t IH]; intros skip pos; simpl.
  - destruct skip; simpl; [|reflexivity].
    destruct (match_at p []); [discriminate | reflexivity].
  - destruct skip as [|k]; simpl.
    + destruct (match_at p (c :: t)); [discriminate|].
      intros H. f_equal. apply (IH 0 _ H).
    + apply IH.
Qed.

Lemma re_sub_absent (t : str) : re_search p t = None -> re_sub p repl t = t.
Proof.
  intros H. unfold re_sub. rewrite (re_sub_from_nil 0 0); [reflexivity|].
  now apply re_finditer_nil.
Qed.

(** Where the scan visits exactly one match, the text is copied up to
    the match, the replacement follows, and the text after the match
    is copied. *)
Lemma re_sub_from_one skip pos (t : str) i m :
  re_finditer_from p skip pos t = [(i, m)] ->
  pos + skip <= i <= pos + length t /\ m_text m = skipn (i - pos) t /\
  match_at p (skipn (i - pos) t) = Some m /\
  re_sub_from p repl skip t
  = slice skip (i - pos) t ++ repl m ++ skipn (i - pos + m_end m) t.
Proof.
  revert skip pos; induction t as [|c t IH]; intros skip pos; simpl.
  - destruct skip; simpl; [|discriminate].
    destruct (match_at p []) as [m0|] eqn:E; [|discriminate].
    intros [= <- <-]. rewrite Nat.sub_diag. simpl.
    split; [lia|]. split; [exact (match_at_text _ _ E)|]. split; [exact E|].
    unfold slice. simpl. now rewrite skipn_nil.
  - destruct skip as [|k]; simpl.
    + destruct (match_at p (c :: t)) as [m0|] eqn:E.
      * intros H. injection H as <- <- Hrest.
        rewrite Nat.sub_diag, Nat.add_0_r. simpl. split; [lia|].
        split; [exact (match_at_text _ _ E)|].
        split; [exact E|]. unfold slice. simpl. f_equal.
        destruct (m_end m0) as [|e].
        -- rewrite (re_sub_from_nil 0 (S pos)); [reflexivity | exact Hrest].
        -- rewrite (re_sub_from_nil e (S pos)); [reflexivity | exact Hrest].
      * intros H. destruct (IH 0 (S pos) H) as (Hle & Ht & Hm & Hs).
        assert (Hi : i - pos = S (i - S pos)) by lia.
        rewrite Hi. simpl. repeat split; try lia; try assumption.
        rewrite Hs. unfold slice. simpl. now rewrite !Nat.sub_0_r.
    + intros H. destruct (IH k (S pos) H) as (Hle & Ht & Hm & Hs).
      assert (Hi : i - pos = S (i - S pos)) by lia.
      rewrite Hi. simpl. repeat split; try lia; try assumption.
Qed.

End Engine.

Lemma re_match_paren (q : regex) pos (t : str) :
  re_match ([Paren] ++ q) pos t
  = match re_match q pos t with Some os => Some (pos :: os) | None => None end.
Proof. reflexivity. Qed.

Lemma re_match_rep cls lo (q : regex) pos (t : str) :
  re_match ([Rep cls lo] ++ q) pos t
  = backtrack (fun k => re_match q (pos + k) (skipn k t)) lo (span cls t).
Proof. reflexivity. Qed.

Lemma slice_app (a b c : str) :
  slice (length a) (length a + length b) (a ++ b ++ c) = b.
Proof.
  unfold slice. rewrite skipn_app_length.
  replace (length a + length b - length a) with (length b) by lia.
  apply firstn_app_length.
Qed.

Lemma slice_0_app (a c : str) : slice 0 (length a) (a ++ c) = a.
Proof. unfold slice. rewrite Nat.sub_0_r. simpl. apply firstn_app_length. Qed.

(** ** The init-function anchor *)

Section InitShape.

(** The shape of [init_function_pattern]: a literal, a greedy
    repetition of a class, a second literal. *)
Variables (a b : str) (cls : char -> bool).

Let lits (l : str) : regex := map (fun c => Chr (N.eqb c)) l.
Let pat : regex :=
  [Paren] ++ lits a ++ [Rep cls 0; Paren] ++ [Paren] ++ lits b ++ [Paren].

Lemma shape_init_inv (u : str) os :
  re_match pat 0 u = Some os ->
  exists q s, u = a ++ q ++ b ++ s /\ forallb cls q = true /\
              os = offsets_init a q b.
Proof.
  unfold pat. rewrite re_match_paren.
  destruct (re_match _ 0 u) as [os0|] eqn:E; [|discriminate].
  intros [= <-]. unfold lits in E.
  apply re_match_chars_inv in E as (u' & -> & E).
  change ([Rep cls 0; Paren] ++ ?r) with ([Rep cls 0] ++ [Paren] ++ r) in E.
  rewrite re_match_rep in E.
  apply backtrack_some in E as (k & [_ Hk] & E & _).
  rewrite !re_match_paren in E.
  destruct (re_match _ _ (skipn k u')) as [os'|] eqn:E'; [|discriminate].
  injection E as <-.
  apply re_match_chars_inv in E' as (s & Hs & E').
  cbn [re_match] in E'. injection E' as <-.
  pose proof (span_le cls u') as Hle.
  assert (Hq : length (firstn k u') = k) by (apply firstn_length_le; lia).
  exists (firstn k u'), s.
  split; [rewrite <- Hs, firstn_skipn; reflexivity|].
  split; [now apply span_firstn|].
  unfold offsets_init. rewrite Hq. reflexivity.
Qed.

Lemma shape_init_intro (q s : str) :
  forallb cls q = true -> re_match pat 0 (a ++ q ++ b ++ s) <> None.
Proof.
  intros Hq. unfold pat. rewrite re_match_paren.
  unfold lits. rewrite re_match_chars.
  change ([Rep cls 0; Paren] ++ ?r) with ([Rep cls 0] ++ [Paren] ++ r).
  rewrite re_match_rep.
  destruct (backtrack _ 0 _) eqn:E; [discriminate|].
  exfalso. rewrite backtrack_none in E.
  specialize (E (length q) (conj (Nat.le_0_l _) (span_app _ _ _ Hq))).
  rewrite skipn_app_length in E.
  rewrite !re_match_paren, re_match_chars in E. discriminate.
Qed.

End InitShape.

Lemma groups_init (a q b s : str) :
  let m := {| m_text := a ++ q ++ b ++ s; m_offs := offsets_init a q b |} in
  group 1 m = a ++ q /\ group 2 m = b /\ m_end m = length (a ++ q ++ b).
Proof.
  assert (E1 : length a + length q = length (a ++ q)) by (rewrite length_app; lia).
  unfold group, m_end, offsets_init; cbn [m_text m_offs nth last Nat.mul Nat.add].
  rewrite !E1.
  split; [rewrite app_assoc; apply slice_0_app|].
  split.
  - rewrite app_assoc. apply slice_app.
  - rewrite !length_app. lia.
Qed.

(** What a match of [init_function_pattern] at the head of [u] looks
    like: the opening, a run [q] without closing brace, the log
    statement. *)
Lemma init_match_inv (u : str) (m : rmatch) :
  match_at init_function_pattern u = Some m ->
  exists q s,
    u = lit init_open ++ q ++ lit init_log ++ s /\
    forallb not_rbrace q = true /\
    group 1 m = lit init_open ++ q /\
    group 2 m = lit init_log /\
    m_end m = length (lit init_open ++ q ++ lit init_log).
Proof.
  unfold match_at, init_function_pattern, chars.
  destruct (re_match _ 0 u) as [os|] eqn:E; [|discriminate].
  intros [= <-].
  apply shape_init_inv in E as (q & s & -> & Hq & ->).
  exists q, s. split; [reflexivity|]. split; [exact Hq|].
  apply groups_init.
Qed.

Lemma init_match_intro (q s : str) :
  forallb not_rbrace q = true ->
  match_at init_function_pattern (lit init_open ++ q ++ lit init_log ++ s) <> None.
Proof.
  intros Hq. unfold match_at.
  destruct (re_match _ 0 _) eqn:E; [discriminate|].
  exfalso. revert E. apply shape_init_intro. exact Hq.
Qed.

Lemma re_search_some (p : regex) (t : str) m :
  re_search p t = Some m ->
  exists i, i <= length t /\ match_at p (skipn i t) = Some m.
Proof.
  induction t as [|c t IH]; simpl.
  - destruct (match_at p []) eqn:E; [|discriminate].
    intros [= <-]. exists 0. split; [lia | exact E].
  - destruct (match_at p (c :: t)) eqn:E.
    + intros [= <-]. exists 0. split; [lia | exact E].
    + intros H. destruct (IH H) as (i & Hi & Hm). exists (S i). split; [lia | exact Hm].
Qed.

Section Growth.

(** A substitution whose replacement is [extra] characters longer
    than the match it replaces lengthens the text by [extra] for
    every match the scan visits. *)
Variables (p : regex) (repl : rmatch -> str) (extra : nat).

Hypothesis repl_longer : forall u m,
  match_at p u = Some m ->
  length (repl m) = m_end m + extra /\ 1 <= m_end m <= length u.

Lemma re_sub_from_length skip pos (t : str) :
  length (re_sub_from p repl skip t)
  = length t - skip + extra * length (re_finditer_from p skip pos t).
Proof.
  revert skip pos; induction t as [|c t IH]; intros skip pos.
  - destruct skip; simpl; [|lia].
    destruct (match_at p []) as [m|] eqn:E; simpl; [|lia].
    destruct (repl_longer _ _ E) as [_ H]. simpl in H. lia.
  - destruct skip as [|k]; simpl.
    + destruct (match_at p (c :: t)) as [m|] eqn:E; simpl.
      * destruct (repl_longer _ _ E) as [Hl H]. simpl in H.
        rewrite length_app, Hl.
        destruct (m_end m) as [|e]; [lia|].
        rewrite (IH e (S pos)). lia.
      * rewrite (IH 0 (S pos)). lia.
    + apply IH.
Qed.

Lemma re_sub_changes (t : str) :
  0 < extra -> re_search p t <> None -> re_sub p repl t <> t.
Proof.
  intros Hx Hs Heq. apply (f_equal (@length _)) in Heq.
  unfold re_sub in Heq. rewrite (re_sub_from_length 0 0) in Heq.
  destruct (re_finditer_from p 0 0 t) eqn:E.
  - apply re_finditer_nil in E. contradiction.
  - simpl in Heq. nia.
Qed.

End Growth.

Lemma not_rbrace_forallb (q : str) : forallb not_rbrace q = true <-> ~ In rbrace q.
Proof.
  induction q as [|c q IH]; simpl; [tauto|].
  rewrite andb_true_iff, IH. unfold not_rbrace, rbrace.
  destruct (N.eqb_spec c 125); simpl; split.
  - intros [H _]; discriminate.
  - intros H. exfalso. apply H. now left.
  - intros [_ H] [E|E]; [congruence | contradiction].
  - intros H. split; [reflexivity|]. intros E. apply H. now right.
Qed.

Lemma replace_init_longer (u : str) m :
  match_at init_function_pattern u = Some m ->
  length (replace_init m) = m_end m + length loader_call /\ 1 <= m_end m <= length u.
Proof.
  intros H. destruct (init_match_inv _ _ H) as (q & s & -> & _ & G1 & G2 & He).
  unfold replace_init. rewrite G1, G2, He. rewrite !length_app.
  split; [lia|]. split; [|lia].
  assert (0 < length (lit init_open)) by (vm_compute; lia). lia.
Qed.

(** The init anchor is found in [t] exactly when [t] holds the opening
    of [function init], then a text without closing brace, then the log
    statement. *)
Lemma init_anchor_found (t : str) :
  re_search init_function_pattern t <> None <->
  exists p q s, t = p ++ lit init_open ++ q ++ lit init_log ++ s /\ ~ In rbrace q.
Proof.
  split.
  - destruct (re_search init_function_pattern t) as [m|] eqn:E; [|congruence].
    intros _. apply re_search_some in E as (i & Hi & Hm).
    apply init_match_inv in Hm as (q & s & Hu & Hq & _).
    exists (firstn i t), q, s. split.
    + rewrite <- Hu. symmetry. apply firstn_skipn.
    + now apply not_rbrace_forallb.
  - intros (p & q & s & -> & Hq) Hnone.
    rewrite re_search_none in Hnone. specialize (Hnone (length p)).
    rewrite skipn_app_length in Hnone. revert Hnone.
    apply init_match_intro. now apply not_rbrace_forallb.
Qed.

(** C10.  The second substitution, which receives the document text as
    the first substitution left it, inserts the loader call if and only
    if that text holds the opening of the init function, then a text
    without any closing brace, then the fixed log statement.  A closing
    brace anywhere between the opening and the log statement makes the
    anchor fail, and the text is left as it is. *)
Theorem loader_call_inserted_iff (html_content : str) :
  embed_call html_content <> html_content <->
  exists p q s,
    html_content = p ++ lit init_open ++ q ++ lit init_log ++ s /\ ~ In rbrace q.
Proof.
  rewrite <- init_anchor_found. unfold embed_call. split.
  - intros Hne Hnone. apply Hne. now apply re_sub_absent.
  - apply (re_sub_changes _ _ (length loader_call) replace_init_longer).
    vm_compute. lia.
Qed.

Example call_inserted_before_log :
  embed_call (lit "function init() { setup(); log('App initialized and ready'); }")
  = lit "function init() { setup(); loadEmbeddedScripts();" ++ nl ::
    lit "            log('App initialized and ready'); }".
Proof. vm_compute. reflexivity. Qed.

Example nested_block_stops_anchor :
  embed_call (lit "function init() { if (a) { b(); } log('App initialized and ready'); }")
  = lit "function init() { if (a) { b(); } log('App initialized and ready'); }".
Proof. vm_compute. reflexivity. Qed.

(** C10 fails as stated, in both directions.  [enclosed_doc] holds the
    opening of the init function, then a text without closing brace,
    then the log statement, and gets no loader call: the block of the
    first substitution goes between them and brings closing braces.
    [doc_without_init] does not hold the three in a row, and with
    [crafted_scripts] it gets a loader call. *)
Lemma loader_call_iff_counterexample :
  ((exists p q s,
      enclosed_doc = p ++ lit init_open ++ q ++ lit init_log ++ s /\ ~ In rbrace q) /\
   patched_html sample_scripts enclosed_doc = embed_block sample_scripts enclosed_doc /\
   occurrences loader_invocation (patched_html sample_scripts enclosed_doc) = 0) /\
  ((~ exists p q s,
       doc_without_init = p ++ lit init_open ++ q ++ lit init_log ++ s /\ ~ In rbrace q) /\
   patched_html crafted_scripts doc_without_init
   <> embed_block crafted_scripts doc_without_init /\
   occurrences loader_invocation (patched_html crafted_scripts doc_without_init) = 1).
Proof.
  split; split.
  - apply init_anchor_found. vm_compute. discriminate.
  - split; vm_compute; reflexivity.
  - intros H. apply init_anchor_found in H. apply H. vm_compute. reflexivity.
  - split; [|vm_compute; reflexivity].
    intros H. apply (f_equal (occurrences loader_invocation)) in H.
    vm_compute in H. discriminate.
Qed.

(** ** The script-end anchor *)

Section EndShape.

(** The shape of [script_end_pattern]: three literals with a greedy
    non-empty repetition of a class after the first and the second. *)
Variables (a b c : str) (cls : char -> bool).

Let lits (l : str) : regex := map (fun x => Chr (N.eqb x)) l.
Let pat : regex :=
  [Paren] ++ lits a ++ [Rep cls 1] ++ lits b ++ [Rep cls 1; Paren] ++
  [Paren] ++ lits c ++ [Paren].

Lemma shape_end_inv (u : str) os :
  re_match pat 0 u = Some os ->
  exists w1 w2 s,
    u = a ++ w1 ++ b ++ w2 ++ c ++ s /\
    forallb cls w1 = true /\ forallb cls w2 = true /\
    1 <= length w1 /\ 1 <= length w2 /\
    os = offsets_init (a ++ w1 ++ b) w2 c.
Proof.
  unfold pat. rewrite re_match_paren.
  destruct (re_match _ 0 u) as [os0|] eqn:E; [|discriminate].
  intros [= <-]. unfold lits in E.
  apply re_match_chars_inv in E as (u1 & -> & E).
  rewrite re_match_rep in E.
  apply backtrack_some in E as (k1 & [Hk1 Hk1'] & E & _).
  apply re_match_chars_inv in E as (u2 & Hu2 & E).
  change ([Rep cls 1; Paren] ++ ?r) with ([Rep cls 1] ++ [Paren] ++ r) in E.
  rewrite re_match_rep in E.
  apply backtrack_some in E as (k2 & [Hk2 Hk2'] & E & _).
  rewrite !re_match_paren in E.
  destruct (re_match _ _ (skipn k2 u2)) as [os'|] eqn:E'; [|discriminate].
  injection E as <-.
  apply re_match_chars_inv in E' as (s & Hs & E').
  cbn [re_match] in E'. injection E' as <-.
  pose proof (span_le cls u1) as Hle1. pose proof (span_le cls u2) as Hle2.
  assert (Hw1 : length (firstn k1 u1) = k1) by (apply firstn_length_le; lia).
  assert (Hw2 : length (firstn k2 u2) = k2) by (apply firstn_length_le; lia).
  exists (firstn k1 u1), (firstn k2 u2), s.
  split; [rewrite <- Hs, firstn_skipn, <- Hu2, firstn_skipn; reflexivity|].
  split; [now apply span_firstn|]. split; [now apply span_firstn|].
  split; [lia|]. split; [lia|].
  unfold offsets_init. rewrite !length_app, Hw1, Hw2.
  repeat (f_equal; try lia).
Qed.

End EndShape.

Lemma end_match_inv (u : str) (m : rmatch) :
  match_at script_end_pattern u = Some m ->
  exists w1 w2 s,
    u = lit end_start ++ w1 ++ lit end_init ++ w2 ++ lit end_tag ++ s /\
    forallb is_space w1 = true /\ forallb is_space w2 = true /\
    group 1 m = lit end_start ++ w1 ++ lit end_init ++ w2 /\
    group 2 m = lit end_tag /\
    m_end m = length (lit end_start ++ w1 ++ lit end_init ++ w2 ++ lit end_tag).
Proof.
  unfold match_at, script_end_pattern, chars.
  destruct (re_match _ 0 u) as [os|] eqn:E; [|discriminate].
  intros [= <-].
  apply (shape_end_inv (lit end_start) (lit end_init) (lit end_tag)) in E
    as (w1 & w2 & s & -> & H1 & H2 & _ & _ & ->).
  exists w1, w2, s. split; [reflexivity|]. split; [exact H1|]. split; [exact H2|].
  pose proof (groups_init (lit end_start ++ w1 ++ lit end_init) w2 (lit end_tag) s) as G.
  cbv zeta in G. rewrite <- !app_assoc in G. exact G.
Qed.

(** A replacement that puts [ins] between the two groups of a match
    whose groups make up the whole match. *)
Lemma splice_at (t g1 g2 ins : str) i (m : rmatch) :
  i <= length t ->
  skipn i t = g1 ++ g2 ++ skipn (m_end m) (skipn i t) ->
  m_end m = length (g1 ++ g2) ->
  firstn i t ++ (g1 ++ ins ++ g2) ++ skipn (i + m_end m) t
  = firstn (i + length g1) t ++ ins ++ skipn (i + length g1) t.
Proof.
  intros Hi Hs He.
  rewrite <- (skipn_skipn_add (m_end m) i t).
  set (s := skipn (m_end m) (skipn i t)) in *. clearbody s.
  pose proof (firstn_skipn i t) as Ht. rewrite Hs in Ht.
  assert (Hp : length (firstn i t) = i) by (apply firstn_length_le; lia).
  set (p := firstn i t) in *. clearbody p. clear Hs Hi. subst t i.
  replace (length p + length g1) with (length (p ++ g1)) by apply length_app.
  rewrite (app_assoc p g1).
  rewrite firstn_app_length, skipn_app_length.
  now rewrite <- !app_assoc.
Qed.

Lemma splice_front (t g ins : str) i (m : rmatch) :
  i <= length t ->
  skipn i t = g ++ skipn (m_end m) (skipn i t) ->
  m_end m = length g ->
  firstn i t ++ (ins ++ g) ++ skipn (i + m_end m) t
  = firstn i t ++ ins ++ skipn i t.
Proof.
  intros Hi Hs He.
  pose proof (splice_at t [] g ins i m Hi Hs He) as S.
  cbn [app length] in S. rewrite Nat.add_0_r in S. exact S.
Qed.

Lemma skipn_end_of_match (u g s : str) e :
  u = g ++ s -> e = length g -> u = g ++ skipn e u.
Proof. intros -> ->. now rewrite skipn_app_length. Qed.

(** The first substitution, when the scan visits exactly one match. *)
Lemma embed_block_once scripts (doc : str) iA mA :
  re_finditer script_end_pattern doc = [(iA, mA)] ->
  (exists w1 w2 sA,
     skipn iA doc = lit end_start ++ w1 ++ lit end_init ++ w2 ++ lit end_tag ++ sA) /\
  embed_block scripts doc = insertion iA (embedded_block scripts) doc.
Proof.
  intros H.
  destruct (re_sub_from_one script_end_pattern (insert_embedded_code scripts) 0 0 doc _ _ H)
    as ([_ Hi] & _ & Hm & Hs).
  rewrite Nat.sub_0_r in Hm, Hs. simpl in Hi.
  destruct (end_match_inv _ _ Hm) as (w1 & w2 & sA & Hu & _ & _ & G1 & G2 & He).
  split; [now exists w1, w2, sA|].
  unfold embed_block, re_sub. rewrite Hs.
  unfold insert_embedded_code, insertion, slice. rewrite G1, G2, Nat.sub_0_r. simpl skipn.
  rewrite <- (splice_front doc (lit end_start ++ w1 ++ lit end_init ++ w2 ++ lit end_tag)
                (embedded_block scripts) iA mA Hi).
  - now rewrite <- !app_assoc.
  - apply skipn_end_of_match with (s := sA); [|exact He].
    rewrite Hu. now rewrite <- !app_assoc.
  - exact He.
Qed.

(** The second substitution, when the scan visits exactly one match. *)
Lemma embed_call_once (t : str) iB mB :
  re_finditer init_function_pattern t = [(iB, mB)] ->
  exists q sB,
    skipn iB t = lit init_open ++ q ++ lit init_log ++ sB /\ ~ In rbrace q /\
    embed_call t = insertion (iB + length (lit init_open ++ q)) loader_call t.
Proof.
  intros H.
  destruct (re_sub_from_one init_function_pattern replace_init 0 0 t _ _ H)
    as ([_ Hi] & _ & Hm & Hs).
  rewrite Nat.sub_0_r in Hm, Hs. simpl in Hi.
  destruct (init_match_inv _ _ Hm) as (q & sB & Hu & Hq & G1 & G2 & He).
  exists q, sB. split; [exact Hu|]. split; [now apply not_rbrace_forallb|].
  unfold embed_call, re_sub. rewrite Hs.
  unfold replace_init, insertion, slice. rewrite G1, G2, Nat.sub_0_r. simpl skipn.
  apply splice_at; [exact Hi| |].
  - rewrite app_assoc. apply skipn_end_of_match with (s := sB).
    + rewrite Hu. now rewrite <- !app_assoc.
    + rewrite He. now rewrite <- !app_assoc.
  - rewrite He. now rewrite <- !app_assoc.
Qed.

(** C1, amended.  When the scan of the first substitution finds the
    script-end anchor exactly once in the target document, and the scan
    of the second substitution finds the init anchor exactly once in the
    text the first one produced, the output is the document with
    exactly two insertions: the block (data declaration and loader
    routine) at the offset where the script-end anchor starts, and the
    loader call at the offset where the log statement starts.  Every
    character of the document is in the output, unchanged and in
    order, around the two inserted pieces. *)
Theorem patch_two_insertions scripts (doc : str) iA mA iB mB :
  re_finditer script_end_pattern doc = [(iA, mA)] ->
  re_finditer init_function_pattern (embed_block scripts doc) = [(iB, mB)] ->
  exists w1 w2 sA q sB,
    skipn iA doc = lit end_start ++ w1 ++ lit end_init ++ w2 ++ lit end_tag ++ sA /\
    embed_block scripts doc = insertion iA (embedded_block scripts) doc /\
    skipn iB (embed_block scripts doc) = lit init_open ++ q ++ lit init_log ++ sB /\
    ~ In rbrace q /\
    patched_html scripts doc
    = insertion (iB + length (lit init_open ++ q)) loader_call
        (insertion iA (embedded_block scripts) doc).
Proof.
  intros HA HB.
  destruct (embed_block_once scripts doc iA mA HA) as ((w1 & w2 & sA & HuA) & EA).
  destruct (embed_call_once _ iB mB HB) as (q & sB & HuB & Hq & EB).
  exists w1, w2, sA, q, sB.
  split; [exact HuA|]. split; [exact EA|]. split; [exact HuB|]. split; [exact Hq|].
  unfold patched_html. rewrite EB, EA. reflexivity.
Qed.

(** *** Concrete documents *)

Example plain_doc_patched :
  occurrences data_declaration (patched_html sample_scripts plain_doc) = 1 /\
  occurrences loader_body (patched_html sample_scripts plain_doc) = 1 /\
  occurrences loader_invocation (patched_html sample_scripts plain_doc) = 1.
Proof. vm_compute. repeat split. Qed.

(** C1 fails as stated.  [enclosed_doc] holds each anchor exactly once,
    yet its patched text holds no call of the loader: the block put in
    front of the script-end anchor brings closing braces between the
    opening of the init function and the log statement.  And the output
    of a run, which again holds each anchor exactly once, is patched
    into a text with two data declarations, two loader bodies and two
    loader calls. *)
Lemma patch_once_counterexample :
  (length (re_finditer script_end_pattern enclosed_doc) = 1 /\
   length (re_finditer init_function_pattern enclosed_doc) = 1 /\
   occurrences loader_invocation (patched_html sample_scripts enclosed_doc) = 0) /\
  (let once := patched_html sample_scripts plain_doc in
   length (re_finditer script_end_pattern once) = 1 /\
   length (re_finditer init_function_pattern once) = 1 /\
   occurrences data_declaration (patched_html sample_scripts once) = 2 /\
   occurrences loader_body (patched_html sample_scripts once) = 2 /\
   occurrences loader_invocation (patched_html sample_scripts once) = 2).
Proof. vm_compute. repeat split. Qed.

Lemma patch_two_insertions_witness :
  exists w1 w2 sA q sB,
    skipn 71 plain_doc
    = lit end_start ++ w1 ++ lit end_init ++ w2 ++ lit end_tag ++ sA /\
    embed_block sample_scripts plain_doc
    = insertion 71 (embedded_block sample_scripts) plain_doc /\
    skipn 8 (embed_block sample_scripts plain_doc)
    = lit init_open ++ q ++ lit init_log ++ sB /\
    ~ In rbrace q /\
    patched_html sample_scripts plain_doc
    = insertion (8 + length (lit init_open ++ q)) loader_call
        (insertion 71 (embedded_block sample_scripts) plain_doc).
Proof.
  eapply (patch_two_insertions sample_scripts plain_doc 71 _ 8 _);
    vm_compute; reflexivity.
Defined.

(** ** The encoder *)

(** [lia] with division and remainder by constants. *)
Ltac Zify.zify_post_hook ::= Z.to_euclidean_division_equations.

Ltac decide_tests :=
  repeat match goal with
         | |- context [(?x <? ?y)%N] => destruct (N.ltb_spec x y); try lia
         | |- context [(?x <=? ?y)%N] => destruct (N.leb_spec x y); try lia
         | |- context [(?x =? ?y)%N] => destruct (N.eqb_spec x y); try lia
         end.

Lemma some_eq {A} (a b : A) : Some a = Some b -> a = b.
Proof. now intros [= ->]. Qed.

(** Introduce [Some a = Some b] and substitute, without computing. *)
Ltac intro_some :=
  let E := fresh "E" in intros E; apply some_eq in E; subst.

Lemma utf8_char_bytes (c : char) bs :
  utf8_char c = Some bs -> Forall is_byte bs.
Proof.
  unfold utf8_char, is_byte.
  decide_tests; cbn [andb]; try discriminate; intro_some;
    repeat (apply Forall_cons; [lia|]); apply Forall_nil.
Qed.

Lemma utf8_char_valid (c : char) : scalar_value c -> utf8_char c <> None.
Proof.
  unfold scalar_value, utf8_char. intros H.
  decide_tests; cbn [andb]; discriminate.
Qed.

Ltac decode_case :=
  intro_some; cbn [app utf8_decode]; unfold is_cont;
  decide_tests; cbn [andb negb]; try (do 2 f_equal; lia).

(** Decoding the bytes of one code point gives the code point back and
    goes on with the bytes that follow. *)
Lemma utf8_decode_char (c : char) bs (rest : list byte) :
  utf8_char c = Some bs ->
  utf8_decode (bs ++ rest) = option_map (cons c) (utf8_decode rest).
Proof.
  unfold utf8_char.
  destruct (N.ltb_spec c 0x80); [decode_case; reflexivity|].
  destruct (N.ltb_spec c 0x800); [decode_case|].
  destruct (N.leb_spec 0xD800 c); destruct (N.leb_spec c 0xDFFF);
    cbn [andb]; try discriminate.
  all: destruct (N.ltb_spec c 0x10000);
    [decode_case | destruct (N.ltb_spec c 0x110000); [decode_case | discriminate]].
Qed.

Lemma is_scalar_spec (s : str) : forallb is_scalar s = true -> valid_text s.
Proof.
  unfold valid_text. rewrite Forall_forall, forallb_forall.
  intros H c Hc. specialize (H c Hc). unfold is_scalar in H. unfold scalar_value.
  revert H. decide_tests; cbn [andb orb]; try discriminate; intros _; lia.
Qed.

Lemma utf8_encode_valid (s : str) : valid_text s -> utf8_encode s <> None.
Proof.
  induction 1 as [|c s Hc _ IH]; simpl; [discriminate|].
  destruct (utf8_char c) eqn:E; [|now apply utf8_char_valid in Hc].
  destruct (utf8_encode s); [discriminate | contradiction].
Qed.

Lemma utf8_encode_bytes (s : str) bs :
  utf8_encode s = Some bs -> Forall is_byte bs.
Proof.
  revert bs; induction s as [|c s IH]; simpl; intros bs.
  - intro_some. constructor.
  - destruct (utf8_char c) as [b1|] eqn:E; [|discriminate].
    destruct (utf8_encode s) as [b2|]; [|discriminate].
    intro_some. apply Forall_app. split; [eapply utf8_char_bytes; eauto | auto].
Qed.

(** UTF-8 decoding undoes UTF-8 encoding. *)
Lemma utf8_decode_encode (s : str) bs :
  utf8_encode s = Some bs -> utf8_decode bs = Some s.
Proof.
  revert bs; induction s as [|c s IH]; simpl; intros bs.
  - now intro_some.
  - destruct (utf8_char c) as [b1|] eqn:E; [|discriminate].
    destruct (utf8_encode s) as [b2|]; [|discriminate].
    intro_some. rewrite (utf8_decode_char _ _ _ E), (IH _ eq_refl). reflexivity.
Qed.

(** *** Base64 *)

Lemma b64_index_char (i : N) : (i < 64)%N -> b64_index (b64_char i) = Some i.
Proof.
  intros H. rewrite <- (N2Nat.id i).
  assert (Hn : N.to_nat i < 64) by lia.
  generalize dependent (N.to_nat i). clear. intros n Hn.
  do 64 (destruct n as [|n]; [reflexivity|]). lia.
Qed.

Lemma b64_char_not_pad (i : N) : (i < 64)%N -> (b64_char i =? b64_pad)%N = false.
Proof.
  intros H. destruct (N.eqb_spec (b64_char i) b64_pad) as [E|]; [|reflexivity].
  pose proof (b64_index_char i H) as Hi. rewrite E in Hi. discriminate.
Qed.

Lemma list_ind3 {A} (P : list A -> Prop) :
  P [] -> (forall a, P [a]) -> (forall a b, P [a; b]) ->
  (forall a b c l, P l -> P (a :: b :: c :: l)) ->
  forall l, P l.
Proof.
  intros H0 H1 H2 H3.
  fix IH 1. intros [|a [|b [|c l]]].
  - exact H0.
  - apply H1.
  - apply H2.
  - apply H3, IH.
Qed.

Ltac b64_sextets :=
  repeat match goal with
         | |- context [b64_index (b64_char ?i)] =>
             rewrite (b64_index_char i) by lia
         | |- context [(b64_char ?i =? b64_pad)%N] =>
             rewrite (b64_char_not_pad i) by lia
         end.

(** Base64 decoding undoes base64 encoding. *)
Lemma b64decode_encode (bs : list byte) :
  Forall is_byte bs -> b64decode (b64encode bs) = Some bs.
Proof.
  unfold is_byte.
  induction bs as [|a|a b|a b c l IH] using list_ind3; intros H.
  - reflexivity.
  - inversion_clear H. cbn [b64encode b64decode].
    rewrite N.eqb_refl. unfold b64_last. rewrite N.eqb_refl.
    b64_sextets. decide_tests. do 2 f_equal. lia.
  - inversion_clear H as [|? ? Ha H']. inversion_clear H' as [|? ? Hb _].
    cbn [b64encode b64decode].
    rewrite N.eqb_refl. unfold b64_last.
    b64_sextets. decide_tests. do 2 f_equal; [lia|]. f_equal. lia.
  - inversion_clear H as [|? ? Ha H']. inversion_clear H' as [|? ? Hb H''].
    inversion_clear H'' as [|? ? Hc Hl].
    cbn [b64encode b64decode]. unfold b64_quad.
    b64_sextets. rewrite (IH Hl). cbn [app].
    do 2 f_equal; [lia|]. f_equal; [lia|]. f_equal. lia.
Qed.

(** C2.  For every text of Unicode scalar values, which is every text
    UTF-8 can express, line 48 produces an encoding, base64 decoding of
    that encoding gives back exactly the UTF-8 bytes of the text, and
    UTF-8 decoding of those bytes gives back exactly the text: the
    encoding loses nothing. *)
Theorem encode_content_lossless (content : str) :
  valid_text content ->
  exists encoded bytes,
    encode_content content = Some encoded /\
    utf8_encode content = Some bytes /\
    b64decode encoded = Some bytes /\
    utf8_decode bytes = Some content /\
    decode_content encoded = Some content.
Proof.
  intros Hv. unfold encode_content, decode_content.
  destruct (utf8_encode content) as [bs|] eqn:E;
    [|now apply utf8_encode_valid in Hv].
  exists (b64encode bs), bs.
  rewrite (b64decode_encode bs (utf8_encode_bytes _ _ E)).
  rewrite (utf8_decode_encode _ _ E). repeat split.
Qed.

Lemma encode_content_lossless_witness :
  exists encoded bytes,
    encode_content (lit "x = 1" ++ [233; 0x20AC; 0x1F600]%N) = Some encoded /\
    utf8_encode (lit "x = 1" ++ [233; 0x20AC; 0x1F600]%N) = Some bytes /\
    b64decode encoded = Some bytes /\
    utf8_decode bytes = Some (lit "x = 1" ++ [233; 0x20AC; 0x1F600]%N) /\
    decode_content encoded = Some (lit "x = 1" ++ [233; 0x20AC; 0x1F600]%N).
Proof.
  apply (encode_content_lossless (lit "x = 1" ++ [233; 0x20AC; 0x1F600]%N)).
  apply is_scalar_spec. vm_compute. reflexivity.
Defined.

(** ** What the loader decodes *)

(** The loader routine applies [atob] to the encoded content: the
    base64 step alone.  It gives the UTF-8 bytes of the text, which are
    the characters of the text when the text is ASCII. *)
Example loader_atob_ascii :
  b64decode (lit "cGFzcw==") = Some (lit "pass") /\
  encode_content (lit "pass") = Some (lit "cGFzcw==").
Proof. vm_compute. split; reflexivity. Qed.

Example loader_atob_bytes :
  encode_content [233%N] = Some (lit "w6k=") /\
  b64decode (lit "w6k=") = Some [195; 169]%N /\
  decode_content (lit "w6k=") = Some [233%N].
Proof. vm_compute. repeat split. Qed.

(** ** The metadata extractor: what holds *)

Lemma ignorecase_space (p c : char) :
  ignorecase p c = true -> is_space c = is_space p.
Proof.
  unfold ignorecase. rewrite !orb_true_iff, !andb_true_iff, !orb_true_iff.
  rewrite !N.eqb_eq, !N.leb_le.
  intros H. unfold is_space.
  destruct H as [[[[[H|H]|H]|H]|H]|H].
  - now subst.
  - destruct H as [[H1 H2] ->]. decide_tests; reflexivity.
  - destruct H as [[H1 H2] ->]. decide_tests; reflexivity.
  - destruct H as [[H| H] ->]; subst; reflexivity.
  - destruct H as [[H| H] [->| ->]]; subst; reflexivity.
  - destruct H as [[H| H] ->]; subst; reflexivity.
Qed.

Lemma re_match_chars_i (l w : str) (q : regex) pos (u : str) :
  same_word l w ->
  re_match (map (fun p => Chr (ignorecase p)) l ++ q) pos (w ++ u)
  = re_match q (pos + length l) u.
Proof.
  intros H. revert pos. induction H as [|p c l w Hpc _ IH]; intros pos; simpl.
  - now rewrite Nat.add_0_r.
  - rewrite Hpc, IH. f_equal. lia.
Qed.

Lemma same_word_length (l w : str) : same_word l w -> length w = length l.
Proof. intros H. symmetry. exact (Forall2_length H). Qed.

Lemma backtrack_first {A} (f : nat -> option A) lo n r :
  lo <= n -> f n = Some r -> backtrack f lo n = Some r.
Proof.
  intros Hlo Hf. destruct n; simpl; rewrite Hf.
  - destruct (Nat.ltb_spec 0 lo); [lia | reflexivity].
  - destruct (Nat.ltb_spec (S n) lo); [lia | reflexivity].
Qed.

Lemma span_exact cls (q u : str) :
  forallb cls q = true ->
  match u with c :: _ => cls c = false | [] => True end ->
  span cls (q ++ u) = length q.
Proof.
  intros Hq Hu. induction q as [|c q IH]; simpl in *.
  - destruct u as [|c u]; simpl; [reflexivity | now rewrite Hu].
  - apply andb_true_iff in Hq as [Hc Hq]. rewrite Hc. f_equal. now apply IH.
Qed.

(** The part of a marker pattern behind the word: white space, then
    the group with the rest of the line. *)
Lemma marker_tail_match pos (ws2 value rest : str) :
  forallb is_space ws2 = true ->
  forallb is_dot value = true ->
  starts_with_no_space (value ++ rest) ->
  ends_line rest ->
  re_match [Rep is_space 0; Paren; Rep is_dot 0; Paren] pos (ws2 ++ value ++ rest)
  = Some [pos + length ws2; pos + length ws2 + length value;
          pos + length ws2 + length value].
Proof.
  intros Hws Hv Hs He.
  change [Rep is_space 0; Paren; Rep is_dot 0; Paren]
    with ([Rep is_space 0] ++ [Paren] ++ [Rep is_dot 0] ++ [Paren]).
  rewrite re_match_rep, (span_exact is_space ws2 (value ++ rest) Hws).
  2:{ unfold starts_with_no_space in Hs. destruct (value ++ rest); [exact I | exact Hs]. }
  apply backtrack_first; [lia|].
  rewrite skipn_app_length, re_match_paren, re_match_rep.
  rewrite (span_exact is_dot value rest Hv).
  2:{ unfold ends_line in He. destruct rest as [|c rest]; [exact I|]. now subst c. }
  rewrite (backtrack_first _ 0 (length value)
             [pos + length ws2 + length value; pos + length ws2 + length value]);
    [reflexivity | lia |].
  rewrite skipn_app_length. reflexivity.
Qed.

(** A marker comment at the head of the text: the group is the rest of
    the line on which the first character after the white space
    stands. *)
Lemma marker_match (word : string) (ws1 w ws2 value rest : str) :
  starts_with_no_space (lit word) -> lit word <> [] ->
  forallb is_space ws1 = true ->
  same_word (lit word) w ->
  forallb is_space ws2 = true ->
  forallb is_dot value = true ->
  starts_with_no_space (value ++ rest) ->
  ends_line rest ->
  exists m,
    match_at (marker_regex word) (hash :: ws1 ++ w ++ ws2 ++ value ++ rest) = Some m /\
    group 1 m = value.
Proof.
  intros Hword Hne Hws1 Hw Hws2 Hv Hs He.
  set (prefix := [hash] ++ ws1 ++ w).
  set (o := length (prefix ++ ws2)).
  exists {| m_text := hash :: ws1 ++ w ++ ws2 ++ value ++ rest;
            m_offs := [o; o + length value; o + length value] |}.
  split.
  - unfold match_at, marker_regex, chars_i.
    change (hash :: ws1 ++ w ++ ws2 ++ value ++ rest)
      with ([hash] ++ ws1 ++ w ++ ws2 ++ value ++ rest).
    rewrite (re_match_chars_i (lit "#") [hash]) by (repeat constructor).
    rewrite re_match_rep.
    assert (Hsp : span is_space (ws1 ++ w ++ ws2 ++ value ++ rest) = length ws1).
    { apply span_exact; [exact Hws1|].
      unfold starts_with_no_space in Hword.
      destruct Hw as [|p c l w' Hpc Hrest]; [now contradiction Hne|].
      cbn [app]. now rewrite (ignorecase_space _ _ Hpc). }
    rewrite Hsp.
    rewrite (backtrack_first _ 0 (length ws1) [o; o + length value; o + length value]);
      [reflexivity | lia |].
    rewrite skipn_app_length, (re_match_chars_i (lit word) w _ _ _ Hw).
    rewrite (marker_tail_match _ ws2 value rest Hws2 Hv Hs He).
    unfold o, prefix. rewrite !length_app, (same_word_length _ _ Hw).
    cbn [length]. repeat f_equal; lia.
  - unfold group. cbn [m_text m_offs nth Nat.mul Nat.add].
    change (hash :: ws1 ++ w ++ ws2 ++ value ++ rest)
      with ([hash] ++ ws1 ++ w ++ ws2 ++ value ++ rest).
    replace ([hash] ++ ws1 ++ w ++ ws2 ++ value ++ rest)
      with ((prefix ++ ws2) ++ value ++ rest)
      by (unfold prefix; now rewrite <- !app_assoc).
    apply slice_app.
Qed.

(** [re.search] returns the match at the first position that has one. *)
Lemma re_search_first (p : regex) (pre u : str) m :
  (forall i, i < length pre -> match_at p (skipn i (pre ++ u)) = None) ->
  match_at p u = Some m ->
  re_search p (pre ++ u) = Some m.
Proof.
  induction pre as [|c pre IH]; intros Hpre Hm.
  - destruct u; simpl; now rewrite Hm.
  - pose proof (Hpre 0 (Nat.lt_0_succ _)) as H0. cbn [skipn app] in H0.
    cbn [app re_search]. rewrite H0.
    apply IH; [|exact Hm]. intros i Hi. apply (Hpre (S i)). simpl. lia.
Qed.

(** No marker pattern matches at a position that holds no hash sign. *)
Lemma marker_needs_hash (word : string) (t : str) :
  match t with c :: _ => c <> hash | [] => True end ->
  match_at (marker_regex word) t = None.
Proof.
  unfold match_at, marker_regex, chars_i. destruct t as [|c t]; [reflexivity|].
  intros Hc. cbn [lit list_ascii_of_string map app re_match].
  replace (ignorecase (N_of_ascii "#") c) with false; [reflexivity|].
  symmetry. unfold ignorecase. change (N_of_ascii "#") with 35%N.
  unfold hash in Hc. cbn [N.leb N.compare Pos.compare Pos.compare_cont andb orb N.eqb Pos.eqb].
  destruct (N.eqb_spec c 35); [contradiction | reflexivity].
Qed.

Lemma no_marker_without_hash (word : string) (pre u : str) :
  ~ In hash pre ->
  forall i, i < length pre -> match_at (marker_regex word) (skipn i (pre ++ u)) = None.
Proof.
  intros Hpre i Hi. apply marker_needs_hash.
  rewrite skipn_app. replace (i - length pre) with 0 by lia. simpl skipn at 2.
  destruct (skipn i pre) as [|c r] eqn:E.
  - exfalso. apply (f_equal (@length _)) in E. rewrite length_skipn in E. simpl in E. lia.
  - cbn [app]. intros ->. apply Hpre.
    rewrite <- (firstn_skipn i pre), E. apply in_or_app. right. now left.
Qed.

(** *** Splitting and trimming *)

Lemma split_no_sep (sep : char) (x : str) : ~ In sep x -> split sep x = [x].
Proof.
  induction x as [|c x IH]; intros H; [reflexivity|]. simpl.
  destruct (N.eqb_spec c sep) as [->|_]; [exfalso; apply H; now left|].
  rewrite IH; [reflexivity|]. intros Hin. apply H. now right.
Qed.

Lemma split_app_sep (sep : char) (x y : str) :
  ~ In sep x -> split sep (x ++ sep :: y) = x :: split sep y.
Proof.
  induction x as [|c x IH]; intros H; simpl.
  - now rewrite N.eqb_refl.
  - destruct (N.eqb_spec c sep) as [->|_]; [exfalso; apply H; now left|].
    rewrite IH; [reflexivity|]. intros Hin. apply H. now right.
Qed.

Lemma lstrip_spaces (s t : str) : forallb is_space s = true -> lstrip (s ++ t) = lstrip t.
Proof.
  induction s as [|c s IH]; simpl; [reflexivity|].
  intros H. apply andb_true_iff in H as [Hc Hs]. rewrite Hc. now apply IH.
Qed.

Lemma lstrip_no_space (t : str) : starts_with_no_space t -> lstrip t = t.
Proof. destruct t as [|c t]; simpl; [reflexivity|]. now intros ->. Qed.

Lemma starts_app (t s : str) :
  t <> [] -> starts_with_no_space t -> starts_with_no_space (t ++ s).
Proof. destruct t; [contradiction | auto]. Qed.

Lemma strip_padded (s1 t s2 : str) :
  forallb is_space s1 = true -> forallb is_space s2 = true -> token t ->
  strip (s1 ++ t ++ s2) = t.
Proof.
  intros H1 H2 (Hne & Hh & Hl). unfold strip, rstrip.
  rewrite (lstrip_spaces s1 _ H1), (lstrip_no_space _ (starts_app t s2 Hne Hh)).
  rewrite rev_app_distr, lstrip_spaces, (lstrip_no_space _ Hl), rev_involutive;
    [reflexivity|].
  rewrite forallb_forall in *. intros c Hc. apply H2. now apply in_rev.
Qed.

(** The list read out of the value [a s1 , s2 b s3]. *)
Lemma file_list_two (a s1 s2 b s3 : str) :
  token a -> token b -> ~ In comma a -> ~ In comma b ->
  forallb is_space s1 = true -> forallb is_space s2 = true ->
  forallb is_space s3 = true ->
  file_list (a ++ s1 ++ comma :: s2 ++ b ++ s3) = [a; b].
Proof.
  intros Ta Tb Ca Cb H1 H2 H3.
  assert (Hsp : forall s, forallb is_space s = true -> ~ In comma s).
  { intros s Hs Hin. rewrite forallb_forall in Hs. specialize (Hs _ Hin). discriminate. }
  unfold file_list. rewrite app_assoc, split_app_sep, split_no_sep.
  - cbn [filter map].
    pose proof (strip_padded [] a s1 eq_refl H1 Ta) as Ea. cbn [app] in Ea.
    pose proof (strip_padded s2 b s3 H2 H3 Tb) as Eb.
    rewrite Ea, Eb.
    destruct Ta as (Ha & _), Tb as (Hb & _).
    destruct a; [contradiction|]. destruct b; [contradiction|].
    cbn [nonempty map]. now rewrite Ea, Eb.
  - intros Hin. apply in_app_or in Hin as [Hin|Hin]; [now apply (Hsp s2)|].
    apply in_app_or in Hin as [Hin|Hin]; [contradiction | now apply (Hsp s3)].
  - intros Hin. apply in_app_or in Hin as [Hin|Hin]; [contradiction | now apply (Hsp s1)].
Qed.

Lemma files_of_match_value (m : rmatch) :
  files_of_match (Some m) = file_list (group 1 m).
Proof.
  unfold files_of_match. destruct (group 1 m); reflexivity.
Qed.

(** The list the extractor returns for a text whose first hash sign
    opens a [user_files] comment: the tokens of the rest of the line on
    which the first character behind the marker stands. *)
Lemma user_files_of_comment (pre ws1 w ws2 value rest : str) :
  ~ In hash pre ->
  forallb is_space ws1 = true ->
  same_word (lit "user_files:") w ->
  forallb is_space ws2 = true ->
  forallb is_dot value = true ->
  starts_with_no_space (value ++ rest) ->
  ends_line rest ->
  fst (parse_required_files (pre ++ hash :: ws1 ++ w ++ ws2 ++ value ++ rest))
  = file_list value.
Proof.
  intros Hpre H1 Hw H2 Hv Hs He.
  destruct (marker_match "user_files:" ws1 w ws2 value rest) as (m & Hm & Hg);
    try assumption; [reflexivity | discriminate |].
  unfold parse_required_files. cbn [fst].
  change user_files_regex with (marker_regex "user_files:").
  rewrite (re_search_first _ pre _ m); [|now apply no_marker_without_hash | exact Hm].
  now rewrite files_of_match_value, Hg.
Qed.

(** A comment [# user_files: a, b] gives the list [a; b], whatever the
    letter case of the marker word and the white space around the
    marker and the tokens. *)
Lemma user_files_a_b (pre ws1 w ws2 a s1 s2 b s3 rest : str) :
  ~ In hash pre ->
  forallb is_space ws1 = true ->
  same_word (lit "user_files:") w ->
  forallb is_space ws2 = true ->
  token a -> token b -> ~ In comma a -> ~ In comma b ->
  forallb is_space s1 = true -> forallb is_space s2 = true ->
  forallb is_space s3 = true ->
  forallb is_dot (a ++ s1 ++ comma :: s2 ++ b ++ s3) = true ->
  ends_line rest ->
  fst (parse_required_files
         (pre ++ hash :: ws1 ++ w ++ ws2 ++ (a ++ s1 ++ comma :: s2 ++ b ++ s3) ++ rest))
  = [a; b].
Proof.
  intros Hpre H1 Hw H2 Ta Tb Ca Cb S1 S2 S3 Hv He.
  rewrite user_files_of_comment; try assumption.
  - now apply file_list_two.
  - rewrite <- app_assoc. destruct Ta as (Ha & Hh & _). now apply starts_app.
Qed.

(** A text without hash sign has no marker: both lists are empty. *)
Lemma no_marker_no_files (text : str) :
  ~ In hash text -> parse_required_files text = ([], []).
Proof.
  intros H.
  assert (Hn : forall word, re_search (marker_regex word) text = None).
  { intros word. apply re_search_none. intros i. apply marker_needs_hash.
    destruct (skipn i text) as [|c r] eqn:E; [exact I|].
    intros ->. apply H. rewrite <- (firstn_skipn i text), E.
    apply in_or_app. right. now left. }
  unfold parse_required_files.
  change user_files_regex with (marker_regex "user_files:").
  change process_files_regex with (marker_regex "process_files:").
  now rewrite !Hn.
Qed.

Example user_files_a_b_instance :
  fst (parse_required_files
         (lit "import os" ++ nl :: lit "#  USER_Files:   a.csv ,b.txt  " ++ nl :: lit "x=1"))
  = [lit "a.csv"; lit "b.txt"].
Proof.
  apply (user_files_a_b (lit "import os" ++ [nl]) (lit "  ") (lit "USER_Files:")
           (lit "   ") (lit "a.csv") (lit " ") [] (lit "b.txt") (lit "  ")
           (nl :: lit "x=1"));
    try (vm_compute; reflexivity).
  - vm_compute. intuition discriminate.
  - repeat constructor.
  - vm_compute. intuition discriminate.
  - vm_compute. intuition discriminate.
  - vm_compute. intuition discriminate.
  - vm_compute. intuition discriminate.
Qed.

(** ** The metadata extractor: the empty value *)

(** C3.  The marker [user_files] of this text has an empty value, yet
    the extractor returns a user-files list that is not empty: the
    white space the pattern skips after the colon takes in the line
    feed, and the group then captures the next line. *)
Theorem empty_value_takes_next_line :
  parse_required_files empty_marker_text
  = ([lit "# process_files: data.csv"], [lit "data.csv"]).
Proof. vm_compute. reflexivity. Qed.

(** ** The scanner and the collection loop *)

Lemma try_collect_one (n : str) (scripts : list script_info) (d : directory) :
  try (collect_one n scripts)
      (fun e => print (MsgErrorReading n e) ;; ret scripts) d
  = {| events := [EvRead n; EvPrint (report d n)];
       final := d;
       value := Ok (scripts ++ match record_of d n with Some r => [r] | None => [] end) |}.
Proof.
  unfold try, collect_one, bind, read_text, report, record_of, text_of.
  cbn [value final events].
  destruct (lookup n d) as [[[content|]|]|];
    try (unfold print, emit, ret; cbn [value final events app];
         now rewrite app_nil_r).
  destruct (parse_required_files content) as [user_files process_files].
  unfold b64_of_content.
  destruct (encode_content content) as [b64|];
    unfold print, emit, ret, raise; cbn [value final events app fst snd userFiles processFiles].
  - reflexivity.
  - now rewrite app_nil_r.
Qed.

Lemma collect_loop_run (paths : list str) (scripts : list script_info) (d : directory) :
  collect_loop paths scripts d
  = {| events := flat_map (fun n => [EvRead n; EvPrint (report d n)]) (filter not_own paths);
       final := d;
       value := Ok (scripts ++ records_of d (filter not_own paths)) |}.
Proof.
  revert scripts; induction paths as [|n paths IH]; intros scripts.
  - simpl. unfold ret, records_of. simpl. now rewrite app_nil_r.
  - assert (Hn : not_own n = negb (str_eqb n own_name)) by reflexivity.
    cbn [collect_loop filter]. rewrite !Hn.
    destruct (str_eqb n own_name); cbn [negb]; [apply IH|].
    unfold bind. rewrite try_collect_one. cbn [value final events].
    rewrite IH. cbn [value final events]. unfold records_of. cbn [flat_map app].
    now rewrite <- app_assoc.
Qed.

Lemma collect_run (d : directory) :
  collect_python_scripts d
  = {| events := EvGlob :: flat_map (fun n => [EvRead n; EvPrint (report d n)]) (candidates d);
       final := d;
       value := Ok (records_of d (candidates d)) |}.
Proof.
  unfold collect_python_scripts, bind, glob. cbn [value final events].
  rewrite collect_loop_run. reflexivity.
Qed.

Lemma print_names_run (scripts : list script_info) (d : directory) :
  print_names scripts d
  = {| events := map (fun s => EvPrint (MsgScript (name s))) scripts;
       final := d; value := Ok tt |}.
Proof.
  induction scripts as [|s scripts IH]; [reflexivity|].
  cbn [print_names map]. unfold bind, print, emit. cbn [value final events].
  rewrite IH. reflexivity.
Qed.

Lemma lookup_store (path : str) (x : node) (d : directory) :
  lookup path (store path x d) = Some x.
Proof.
  induction d as [|[n y] d IH]; simpl.
  - now rewrite (proj2 (str_eqb_eq path path) eq_refl).
  - destruct (str_eqb n path) eqn:E; simpl; rewrite E; [reflexivity | exact IH].
Qed.

(** The run of [create_embedded_browserbox] on a readable document. *)
Lemma create_run (scripts : list script_info) (d : directory) (doc : str) :
  text_of d input_name = Some doc ->
  create_embedded_browserbox scripts input_name output_name d
  = match lookup output_name d with
    | Some Dir =>
        {| events := [EvRead input_name]; final := d;
           value := Raise (WriteError output_name) |}
    | _ =>
        {| events := [EvRead input_name;
                      EvWrite output_name (patched_html scripts doc);
                      EvPrint (MsgCreated output_name (length scripts))];
           final := store output_name (File (Some (patched_html scripts doc))) d;
           value := Ok output_name |}
    end.
Proof.
  unfold text_of. intros H.
  unfold create_embedded_browserbox, bind, read_text, write_text, print, emit, ret.
  cbn [value final events].
  destruct (lookup input_name d) as [[[content|]|]|]; try discriminate.
  injection H as ->. cbn [value final events].
  destruct (lookup output_name d) as [[?|]|]; reflexivity.
Qed.

Lemma create_run_unreadable (scripts : list script_info) (d : directory) :
  text_of d input_name = None ->
  create_embedded_browserbox scripts input_name output_name d
  = {| events := [EvRead input_name]; final := d;
       value := Raise (ReadError input_name) |}.
Proof.
  unfold text_of. intros H.
  unfold create_embedded_browserbox, bind, read_text. cbn [value final events].
  destruct (lookup input_name d) as [[[content|]|]|]; try discriminate; reflexivity.
Qed.

Lemma bind_ok {A B} (m : M A) (f : A -> M B) (d d' : directory) ev a :
  m d = {| events := ev; final := d'; value := Ok a |} ->
  bind m f d = {| events := ev ++ events (f a d'); final := final (f a d');
                  value := value (f a d') |}.
Proof. intros H. unfold bind. rewrite H. reflexivity. Qed.

Lemma bind_raise {A B} (m : M A) (f : A -> M B) (d d' : directory) ev e :
  m d = {| events := ev; final := d'; value := Raise e |} ->
  bind m f d = {| events := ev; final := d'; value := Raise e |}.
Proof. intros H. unfold bind. rewrite H. reflexivity. Qed.

Lemma print_run (m : message) (d : directory) :
  print m d = {| events := [EvPrint m]; final := d; value := Ok tt |}.
Proof. reflexivity. Qed.

Lemma closing_run (scripts : list script_info) (out : str) (d : directory) :
  (print (MsgSuccess out) ;; print_names scripts ;; print (MsgOpenInBrowser out)) d
  = {| events := EvPrint (MsgSuccess out) ::
                 map (fun s => EvPrint (MsgScript (name s))) scripts ++
                 [EvPrint (MsgOpenInBrowser out)];
       final := d; value := Ok tt |}.
Proof.
  rewrite (bind_ok _ _ _ _ _ _ (print_run _ d)).
  rewrite (bind_ok _ _ _ _ _ _ (print_names_run scripts d)).
  rewrite print_run. reflexivity.
Qed.

(** The run of [main], by cases on what the directory holds. *)
Lemma main_run (d : directory) :
  main d
  = match lookup input_name d with
    | None =>
        {| events := [EvExists input_name; EvPrint MsgNotFound];
           final := d; value := Ok tt |}
    | Some _ =>
        let scripts := records_of d (candidates d) in
        if nonempty scripts then
          let c := create_embedded_browserbox scripts input_name output_name d in
          match value c with
          | Ok out =>
              {| events := scan_events d ++ events c ++ closing_events scripts out;
                 final := final c; value := Ok tt |}
          | Raise e =>
              {| events := scan_events d ++ events c; final := final c;
                 value := Raise e |}
          end
        else
          {| events := scan_events d ++ [EvPrint MsgNoScripts];
             final := d; value := Ok tt |}
    end.
Proof.
  unfold main.
  rewrite (bind_ok _ _ d d [EvExists input_name]
             (match lookup input_name d with Some _ => true | None => false end))
    by reflexivity.
  destruct (lookup input_name d); cbn [negb]; [|reflexivity].
  rewrite (bind_ok _ _ _ _ _ _ (collect_run d)).
  cbv zeta. destruct (records_of d (candidates d)) as [|s scripts] eqn:E;
    cbn [nonempty negb].
  - rewrite print_run. reflexivity.
  - destruct (create_embedded_browserbox (s :: scripts) input_name output_name d)
      as [evc fc [out|e]] eqn:Ec; cbn [value final events].
    + rewrite (bind_ok _ _ _ _ _ _ Ec). rewrite closing_run.
      cbn [value final events]. reflexivity.
    + rewrite (bind_raise _ _ _ _ _ _ Ec). reflexivity.
Qed.

(** ** Runs of the tool *)

(** C6.  When BrowserBox.html is not in the working directory, the run
    consists of the existence test and the printed error: no script is
    read, nothing is written, the directory is as it was, and [main]
    returns. *)
Theorem missing_document_aborts (d : directory) :
  lookup input_name d = None ->
  main d = {| events := [EvExists input_name; EvPrint MsgNotFound];
              final := d; value := Ok tt |} /\
  reads (main d) = [] /\ writes (main d) = [] /\ printed (main d) = [MsgNotFound].
Proof.
  intros H. rewrite main_run, H. repeat split.
Qed.

Lemma missing_document_aborts_witness :
  main dir_without_document
  = {| events := [EvExists input_name; EvPrint MsgNotFound];
       final := dir_without_document; value := Ok tt |} /\
  reads (main dir_without_document) = [] /\
  writes (main dir_without_document) = [] /\
  printed (main dir_without_document) = [MsgNotFound].
Proof. apply missing_document_aborts. vm_compute. reflexivity. Defined.

(** C5.  When BrowserBox.html exists and the glob yields no script
    besides the program's own file, the run consists of the existence
    test, the directory listing and the printed notice: nothing is
    written, so no output file is created, and the directory, the
    target document included, is as it was. *)
Theorem no_scripts_no_output (d : directory) :
  lookup input_name d <> None ->
  candidates d = [] ->
  main d = {| events := [EvExists input_name; EvGlob; EvPrint MsgNoScripts];
              final := d; value := Ok tt |} /\
  writes (main d) = [] /\ printed (main d) = [MsgNoScripts] /\
  lookup output_name (final (main d)) = lookup output_name d /\
  lookup input_name (final (main d)) = lookup input_name d.
Proof.
  intros Hd Hc. rewrite main_run.
  destruct (lookup input_name d) eqn:E; [|contradiction].
  unfold scan_events. rewrite Hc. cbn. repeat split. exact E.
Qed.

Lemma no_scripts_no_output_witness :
  main dir_without_scripts
  = {| events := [EvExists input_name; EvGlob; EvPrint MsgNoScripts];
       final := dir_without_scripts; value := Ok tt |} /\
  writes (main dir_without_scripts) = [] /\
  printed (main dir_without_scripts) = [MsgNoScripts] /\
  lookup output_name (final (main dir_without_scripts))
  = lookup output_name dir_without_scripts /\
  lookup input_name (final (main dir_without_scripts))
  = lookup input_name dir_without_scripts.
Proof.
  apply no_scripts_no_output.
  - vm_compute. discriminate.
  - vm_compute. reflexivity.
Defined.

Lemma records_names (d : directory) (paths : list str) :
  map name (records_of d paths)
  = filter (fun n => match record_of d n with Some _ => true | None => false end) paths.
Proof.
  induction paths as [|n paths IH]; [reflexivity|].
  unfold records_of in *. cbn [flat_map filter].
  destruct (record_of d n) as [r|] eqn:E; cbn [app map]; [|exact IH].
  rewrite IH. f_equal.
  unfold record_of in E. destruct (text_of d n); [|discriminate].
  destruct (encode_content s); [|discriminate]. now injection E as <-.
Qed.

Lemma candidates_spec (d : directory) (n : str) :
  In n (candidates d) <->
  In n (map fst d) /\ is_script_name n = true /\ n <> own_name.
Proof.
  unfold candidates. rewrite !filter_In. unfold not_own.
  rewrite negb_true_iff, str_eqb_neq. tauto.
Qed.

Lemma reads_collect (d : directory) :
  reads (collect_python_scripts d) = candidates d.
Proof.
  rewrite collect_run. unfold reads. cbn [events flat_map app].
  induction (candidates d) as [|n l IH]; [reflexivity|].
  cbn [flat_map app]. now rewrite IH.
Qed.

Lemma printed_collect (d : directory) :
  printed (collect_python_scripts d) = map (report d) (candidates d).
Proof.
  rewrite collect_run. unfold printed. cbn [events flat_map app].
  induction (candidates d) as [|n l IH]; [reflexivity|].
  cbn [flat_map app map]. now rewrite IH.
Qed.

(** C7.  In every working directory the loop works on exactly the
    entries whose name ends in [.py] and is not [embed_scripts.py], each
    of them is read, and no record carries the name of the program's
    own file. *)
Theorem own_file_excluded (d : directory) :
  (forall n, In n (candidates d) <->
             In n (map fst d) /\ is_script_name n = true /\ n <> own_name) /\
  reads (collect_python_scripts d) = candidates d /\
  exists scripts,
    value (collect_python_scripts d) = Ok scripts /\
    ~ In own_name (map name scripts) /\
    (forall s, In s scripts -> In (name s) (candidates d)).
Proof.
  split; [apply candidates_spec|]. split; [apply reads_collect|].
  rewrite collect_run. cbn [value]. eexists. split; [reflexivity|].
  assert (Hin : forall s, In s (records_of d (candidates d)) ->
                          In (name s) (candidates d)).
  { intros s Hs. apply (in_map name) in Hs. rewrite records_names in Hs.
    now apply filter_In in Hs. }
  split; [|exact Hin].
  intros H. apply in_map_iff in H as (s & Hn & Hs).
  apply Hin in Hs. rewrite Hn in Hs. apply candidates_spec in Hs. tauto.
Qed.

Lemma record_of_valid (d : directory) (n : str) :
  directory_valid d ->
  match record_of d n with Some _ => true | None => false end = readable d n.
Proof.
  intros Hv. unfold record_of, readable.
  destruct (text_of d n) as [content|] eqn:E; [|reflexivity].
  destruct (encode_content content) eqn:Ee; [reflexivity|].
  exfalso. unfold encode_content in Ee.
  destruct (utf8_encode content) eqn:Eu; [discriminate|].
  now apply (utf8_encode_valid content (Hv _ _ E)).
Qed.

(** C8.  In a directory whose texts are valid, every candidate is read
    and reported in enumeration order; a candidate whose read fails is
    reported with its error and left out; and the record list holds
    exactly one record for each candidate that was read, in enumeration
    order, built from that file's text. *)
Theorem unreadable_files_skipped (d : directory) :
  directory_valid d ->
  exists scripts,
    value (collect_python_scripts d) = Ok scripts /\
    map name scripts = filter (readable d) (candidates d) /\
    reads (collect_python_scripts d) = candidates d /\
    printed (collect_python_scripts d) = map (report d) (candidates d) /\
    (forall n, readable d n = false -> report d n = MsgErrorReading n (ReadError n)) /\
    (forall s, In s scripts ->
       exists content,
         text_of d (name s) = Some content /\
         encode_content content = Some (content_b64 s) /\
         parse_required_files content = (userFiles s, processFiles s) /\
         report d (name s) = MsgCollected (name s) (userFiles s) (processFiles s)).
Proof.
  intros Hv. exists (records_of d (candidates d)).
  split; [now rewrite collect_run|].
  split.
  { rewrite records_names. apply filter_ext. intros n. now apply record_of_valid. }
  split; [apply reads_collect|]. split; [apply printed_collect|].
  split.
  - intros n Hn. unfold readable in Hn. unfold report, record_of.
    destruct (text_of d n); [discriminate | reflexivity].
  - intros s Hs. unfold records_of in Hs. apply in_flat_map in Hs as (n & _ & Hs).
    destruct (record_of d n) as [r|] eqn:E; [|contradiction].
    destruct Hs as [<-|[]].
    unfold report. pose proof E as E'. unfold record_of in E.
    destruct (text_of d n) as [content|] eqn:Et; [|discriminate].
    destruct (encode_content content) as [b64|] eqn:Ee; [|discriminate].
    injection E as <-. cbn [name content_b64 userFiles processFiles].
    exists content. rewrite E'. cbn [userFiles processFiles].
    repeat split; assumption.
Qed.

Lemma dir_mixed_valid : directory_valid dir_mixed.
Proof.
  intros path content. unfold text_of, dir_mixed. cbn [lookup].
  repeat match goal with
         | |- context [str_eqb ?a path] => destruct (str_eqb a path)
         end; try discriminate; intros [= <-]; apply is_scalar_spec; vm_compute; reflexivity.
Qed.

Lemma unreadable_files_skipped_witness :
  exists scripts,
    value (collect_python_scripts dir_mixed) = Ok scripts /\
    map name scripts = filter (readable dir_mixed) (candidates dir_mixed) /\
    reads (collect_python_scripts dir_mixed) = candidates dir_mixed /\
    printed (collect_python_scripts dir_mixed)
    = map (report dir_mixed) (candidates dir_mixed) /\
    (forall n, readable dir_mixed n = false ->
               report dir_mixed n = MsgErrorReading n (ReadError n)) /\
    (forall s, In s scripts ->
       exists content,
         text_of dir_mixed (name s) = Some content /\
         encode_content content = Some (content_b64 s) /\
         parse_required_files content = (userFiles s, processFiles s) /\
         report dir_mixed (name s)
         = MsgCollected (name s) (userFiles s) (processFiles s)).
Proof. apply unreadable_files_skipped. exact dir_mixed_valid. Defined.

Example dir_mixed_collected :
  map name (records_of dir_mixed (candidates dir_mixed)) = [lit "b.py"; lit "a.py"] /\
  candidates dir_mixed = [lit "b.py"; lit "bad.py"; lit "pkg.py"; lit "a.py"].
Proof. vm_compute. split; reflexivity. Qed.

(** *** Two runs *)

Lemma view_eq {A B} (a b : A -> B) (l1 l2 : list A) :
  map (fun n => (n, a n)) l1 = map (fun n => (n, b n)) l2 ->
  l1 = l2 /\ forall n, In n l1 -> a n = b n.
Proof.
  revert l2; induction l1 as [|x l1 IH]; intros [|y l2]; simpl; try discriminate.
  - intros _. split; [reflexivity | contradiction].
  - intros [= -> Hab Hl]. destruct (IH _ Hl) as [-> Hin].
    split; [reflexivity|]. intros n [<-|Hn]; [exact Hab | now apply Hin].
Qed.

Lemma flat_map_ext_in {A B} (f g : A -> list B) (l : list A) :
  (forall a, In a l -> f a = g a) -> flat_map f l = flat_map g l.
Proof.
  induction l as [|x l IH]; intros H; [reflexivity|]. cbn [flat_map].
  rewrite (H x (or_introl eq_refl)), IH; [reflexivity|].
  intros a Ha. apply H. now right.
Qed.

Lemma same_scripts (d1 d2 : directory) :
  scripts_view d1 = scripts_view d2 ->
  candidates d1 = candidates d2 /\
  records_of d1 (candidates d1) = records_of d2 (candidates d2) /\
  scan_events d1 = scan_events d2.
Proof.
  intros H. apply view_eq in H as [Hc Hl]. rewrite <- Hc.
  assert (Hr : forall n, In n (candidates d1) -> record_of d1 n = record_of d2 n)
    by (intros n Hn; unfold record_of, text_of; now rewrite (Hl n Hn)).
  assert (Hp : forall n, In n (candidates d1) -> report d1 n = report d2 n)
    by (intros n Hn; unfold report, text_of; rewrite (Hr n Hn);
        unfold text_of; now rewrite (Hl n Hn)).
  split; [reflexivity|]. split.
  - unfold records_of. apply flat_map_ext_in. intros n Hn. now rewrite Hr.
  - unfold scan_events. rewrite <- Hc. do 2 f_equal. apply flat_map_ext_in.
    intros n Hn. now rewrite Hp.
Qed.

(** What [create_embedded_browserbox] does, apart from the directory it
    leaves, is decided by the document and by whether the output path
    is a directory. *)
Lemma create_same (scripts : list script_info) (d1 d2 : directory) :
  lookup input_name d1 = lookup input_name d2 ->
  (lookup output_name d1 = Some Dir <-> lookup output_name d2 = Some Dir) ->
  events (create_embedded_browserbox scripts input_name output_name d1)
  = events (create_embedded_browserbox scripts input_name output_name d2) /\
  value (create_embedded_browserbox scripts input_name output_name d1)
  = value (create_embedded_browserbox scripts input_name output_name d2).
Proof.
  intros Hin Hout.
  assert (Ht : text_of d1 input_name = text_of d2 input_name)
    by (unfold text_of; now rewrite Hin).
  destruct (text_of d1 input_name) as [doc|] eqn:E1.
  - rewrite (create_run _ _ _ E1), (create_run scripts d2 doc) by congruence.
    destruct (lookup output_name d1) as [[?|]|], (lookup output_name d2) as [[?|]|];
      cbn [events value]; try (split; reflexivity).
    all: destruct Hout as [H1 H2]; try (now discriminate (H1 eq_refl));
      try (now discriminate (H2 eq_refl)).
  - rewrite (create_run_unreadable _ _ E1), (create_run_unreadable scripts d2) by congruence.
    split; reflexivity.
Qed.

Lemma same_inputs_same_events (d1 d2 : directory) :
  same_inputs d1 d2 ->
  events (main d1) = events (main d2) /\ value (main d1) = value (main d2).
Proof.
  intros (Hv & Hin & Hout).
  destruct (same_scripts _ _ Hv) as (Hc & Hr & Hs).
  destruct (create_same (records_of d1 (candidates d1)) d1 d2 Hin Hout) as [E V].
  rewrite !main_run, <- Hin, <- Hr, <- Hs.
  destruct (lookup input_name d1); [|split; reflexivity].
  cbv zeta. destruct (nonempty (records_of d1 (candidates d1))); [|split; reflexivity].
  rewrite <- E, <- V.
  destruct (value (create_embedded_browserbox _ _ _ d1)); split; reflexivity.
Qed.




(** *** A second run *)

Lemma lookup_store_other (p n : str) (x : node) (d : directory) :
  n <> p -> lookup n (store p x d) = lookup n d.
Proof.
  intros Hn. induction d as [|[k y] d IH]; simpl.
  - destruct (str_eqb p n) eqn:E; [apply str_eqb_eq in E; congruence | reflexivity].
  - destruct (str_eqb k p) eqn:Ek; simpl.
    + destruct (str_eqb k n) eqn:En; [|reflexivity].
      apply str_eqb_eq in Ek, En. congruence.
    + destruct (str_eqb k n); [reflexivity | exact IH].
Qed.

Lemma names_store (p : str) (x : node) (d : directory) :
  map fst (store p x d) = map fst d \/ map fst (store p x d) = map fst d ++ [p].
Proof.
  induction d as [|[k y] d IH]; simpl; [now right|].
  destruct (str_eqb k p); simpl; [now left|].
  destruct IH as [-> | ->]; [now left | now right].
Qed.

Lemma candidates_store (x : node) (d : directory) :
  candidates (store output_name x d) = candidates d.
Proof.
  unfold candidates. destruct (names_store output_name x d) as [-> | ->]; [reflexivity|].
  rewrite !filter_app. cbn. now rewrite app_nil_r.
Qed.

Lemma candidate_not_output (d : directory) (n : str) :
  In n (candidates d) -> n <> output_name /\ n <> input_name.
Proof.
  intros H. apply candidates_spec in H as (_ & Hs & _).
  split; intros ->; vm_compute in Hs; discriminate.
Qed.

(** Writing the output file changes nothing a run takes from the
    directory. *)
Lemma same_inputs_after_write (text : str) (d : directory) :
  lookup output_name d <> Some Dir ->
  same_inputs d (store output_name (File (Some text)) d).
Proof.
  intros Hout. unfold same_inputs, scripts_view. rewrite candidates_store.
  split; [|split].
  - apply map_ext_in. intros n Hn. f_equal. symmetry.
    apply lookup_store_other. now apply (candidate_not_output d).
  - symmetry. apply lookup_store_other. intros E. vm_compute in E. discriminate.
  - rewrite lookup_store. split; [contradiction | discriminate].
Qed.

Lemma final_main (d : directory) :
  final (main d) = d \/
  exists text, lookup output_name d <> Some Dir /\
               final (main d) = store output_name (File (Some text)) d.
Proof.
  rewrite main_run. destruct (lookup input_name d); [|now left].
  cbv zeta. destruct (nonempty _); [|now left].
  destruct (text_of d input_name) as [doc|] eqn:Et.
  - rewrite (create_run _ _ _ Et).
    destruct (lookup output_name d) as [[c|]|] eqn:Eo; cbn [value final];
      [right | now left | right]; eexists; (split; [discriminate | reflexivity]).
  - rewrite (create_run_unreadable _ _ Et). now left.
Qed.

(** The directory a run leaves gives the same run again: the output
    file the first run wrote takes no part in the second. *)
Lemma second_run_same (d : directory) :
  events (main (final (main d))) = events (main d) /\
  value (main (final (main d))) = value (main d).
Proof.
  destruct (final_main d) as [-> | (text & Hout & ->)]; [split; reflexivity|].
  destruct (same_inputs_same_events d _ (same_inputs_after_write text d Hout)) as [E V].
  split; congruence.
Qed.

(** *** Missing anchors *)


Lemma writes_prints (l : list message) :
  flat_map (fun e => match e with EvWrite p t => [(p, t)] | _ => [] end)
           (map EvPrint l) = [].
Proof. induction l; [reflexivity | assumption]. Qed.


Lemma writes_scan (d : directory) :
  flat_map (fun e => match e with EvWrite p t => [(p, t)] | _ => [] end)
           (scan_events d) = [].
Proof.
  unfold scan_events. cbn [flat_map app].
  induction (candidates d); [reflexivity | assumption].
Qed.

Lemma printed_scan (d : directory) :
  flat_map (fun e => match e with EvPrint m => [m] | _ => [] end) (scan_events d)
  = map (report d) (candidates d).
Proof.
  unfold scan_events. cbn [flat_map app].
  induction (candidates d) as [|n l IH]; [reflexivity|].
  cbn [flat_map app map]. now rewrite IH.
Qed.

Lemma closing_as_prints (scripts : list script_info) (out : str) :
  closing_events scripts out
  = map EvPrint (MsgSuccess out :: map (fun s => MsgScript (name s)) scripts
                 ++ [MsgOpenInBrowser out]).
Proof.
  unfold closing_events. cbn [map]. f_equal. rewrite map_app, map_map. reflexivity.
Qed.




Example bare_doc_unchanged :
  re_search script_end_pattern bare_doc = None /\
  re_search init_function_pattern bare_doc = None /\
  writes (main dir_bare) = [(output_name, bare_doc)] /\
  value (main dir_bare) = Ok tt.
Proof. vm_compute. repeat split. Qed.

(** The text the second substitution receives holds the data of the
    scripts, so it can hold the init anchor when the document as read
    does not: the loader call then goes into the data declaration. *)
Example anchor_text_in_metadata :
  re_search init_function_pattern doc_without_init = None /\
  occurrences loader_invocation (embed_block crafted_scripts doc_without_init) = 0 /\
  occurrences loader_invocation (patched_html crafted_scripts doc_without_init) = 1.
Proof. vm_compute. repeat split. Qed.

(** * Further properties *)

(** ** The substitutions on every document *)

Lemma subseq_refl {A} (l : list A) : subseq l l.
Proof. induction l; constructor; assumption. Qed.

Lemma subseq_app_l {A} (ins s l : list A) : subseq s l -> subseq s (ins ++ l).
Proof. intros H. induction ins; simpl; [assumption | now constructor]. Qed.

Lemma subseq_app {A} (s1 l1 s2 l2 : list A) :
  subseq s1 l1 -> subseq s2 l2 -> subseq (s1 ++ s2) (l1 ++ l2).
Proof.
  intros H1 H2. induction H1; simpl.
  - now apply subseq_app_l.
  - now constructor.
  - now constructor.
Qed.

Lemma subseq_trans {A} (a b c : list A) : subseq a b -> subseq b c -> subseq a c.
Proof.
  intros Hab Hbc. revert a Hab. induction Hbc; intros a Hab.
  - inversion Hab; subst. constructor.
  - apply subseq_skip. now apply IHHbc.
  - inversion Hab; subst.
    + constructor.
    + apply subseq_skip. now apply IHHbc.
    + apply subseq_take. now apply IHHbc.
Qed.

Lemma subseq_length {A} (s l : list A) : subseq s l -> length s <= length l.
Proof. induction 1; simpl; lia. Qed.

Section Keeping.

(** A substitution whose replacement holds the characters of the match
    it replaces keeps every character of the text. *)
Variables (p : regex) (repl : rmatch -> str).

Hypothesis repl_keeps : forall u m,
  match_at p u = Some m -> subseq (firstn (m_end m) u) (repl m).

Lemma re_sub_from_keeps skip (t : str) :
  subseq (skipn skip t) (re_sub_from p repl skip t).
Proof.
  revert skip; induction t as [|c t IH]; intros skip.
  - rewrite skipn_nil. constructor.
  - destruct skip as [|k]; [|apply IH].
    cbn [skipn re_sub_from].
    destruct (match_at p (c :: t)) as [m|] eqn:E.
    + pose proof (repl_keeps _ _ E) as Hk.
      destruct (m_end m) as [|e].
      * apply subseq_app_l. apply subseq_take. apply (IH 0).
      * rewrite <- (firstn_skipn (S e) (c :: t)).
        apply subseq_app; [exact Hk | apply IH].
    + apply subseq_take. apply (IH 0).
Qed.

End Keeping.

Lemma insert_embedded_code_keeps scripts (u : str) m :
  match_at script_end_pattern u = Some m ->
  insert_embedded_code scripts m = embedded_block scripts ++ firstn (m_end m) u.
Proof.
  intros H. destruct (end_match_inv _ _ H) as (w1 & w2 & s & -> & _ & _ & G1 & G2 & He).
  unfold insert_embedded_code. rewrite G1, G2, He. f_equal.
  rewrite <- ?app_assoc.
  replace (lit end_start ++ w1 ++ lit end_init ++ w2 ++ lit end_tag ++ s)
    with ((lit end_start ++ w1 ++ lit end_init ++ w2 ++ lit end_tag) ++ s)
    by now rewrite <- !app_assoc.
  now rewrite firstn_app_length.
Qed.

Lemma replace_init_keeps (u : str) m :
  match_at init_function_pattern u = Some m ->
  exists q, ~ In rbrace q /\
            replace_init m = lit init_open ++ q ++ loader_call ++ lit init_log /\
            firstn (m_end m) u = lit init_open ++ q ++ lit init_log.
Proof.
  intros H. destruct (init_match_inv _ _ H) as (q & s & -> & Hq & G1 & G2 & He).
  exists q. split; [now apply not_rbrace_forallb|].
  unfold replace_init. rewrite G1, G2, He. split; [now rewrite <- !app_assoc|].
  replace (lit init_open ++ q ++ lit init_log ++ s)
    with ((lit init_open ++ q ++ lit init_log) ++ s) by now rewrite <- !app_assoc.
  apply firstn_app_length.
Qed.

Lemma embed_block_keeps scripts (doc : str) : subseq doc (embed_block scripts doc).
Proof.
  unfold embed_block, re_sub.
  apply (re_sub_from_keeps script_end_pattern (insert_embedded_code scripts)) with (skip := 0).
  intros u m H. rewrite (insert_embedded_code_keeps _ _ _ H).
  apply subseq_app_l, subseq_refl.
Qed.

Lemma embed_call_keeps (t : str) : subseq t (embed_call t).
Proof.
  unfold embed_call, re_sub.
  apply (re_sub_from_keeps init_function_pattern replace_init) with (skip := 0).
  intros u m H. destruct (replace_init_keeps _ _ H) as (q & _ & -> & ->).
  apply subseq_app; [apply subseq_refl|].
  apply subseq_app; [apply subseq_refl|].
  apply subseq_app_l, subseq_refl.
Qed.

(** X1.  Whatever the document and the scripts are, the patched text
    holds every character of the document, in order: the two
    substitutions only put text in, they delete and change nothing. *)
Theorem patch_keeps_document scripts (doc : str) :
  subseq doc (patched_html scripts doc).
Proof.
  unfold patched_html.
  apply subseq_trans with (b := embed_block scripts doc);
    [apply embed_block_keeps | apply embed_call_keeps].
Qed.

Lemma insert_embedded_code_longer scripts (u : str) m :
  match_at script_end_pattern u = Some m ->
  length (insert_embedded_code scripts m) = m_end m + length (embedded_block scripts) /\
  1 <= m_end m <= length u.
Proof.
  intros H. rewrite (insert_embedded_code_keeps _ _ _ H).
  destruct (end_match_inv _ _ H) as (w1 & w2 & s & -> & _ & _ & _ & _ & He).
  rewrite length_app, He.
  assert (0 < length (lit end_start)) by (vm_compute; lia).
  rewrite firstn_length_le; rewrite !length_app in *; lia.
Qed.

(** X2.  Both substitutions replace every match their scan visits, not
    the first one only: the patched text is longer than the document by
    one block for each script-end anchor found in the document and by
    one loader call for each init anchor found in the text with the
    blocks in it. *)
Theorem patch_length scripts (doc : str) :
  length (patched_html scripts doc)
  = length doc
    + length (embedded_block scripts) * length (re_finditer script_end_pattern doc)
    + length loader_call
      * length (re_finditer init_function_pattern (embed_block scripts doc)).
Proof.
  unfold patched_html, embed_call, re_sub, re_finditer.
  rewrite (re_sub_from_length _ _ (length loader_call) replace_init_longer 0 0).
  unfold embed_block at 1, re_sub.
  rewrite (re_sub_from_length _ _ (length (embedded_block scripts))
             (insert_embedded_code_longer scripts) 0 0).
  lia.
Qed.

Example two_anchors_two_blocks :
  let doc := lit "        // Start the app" ++ nl :: lit "init();" ++ nl ::
             lit "    </script>" ++
             lit "        // Start the app" ++ nl :: lit "init();" ++ nl ::
             lit "    </script>" in
  occurrences data_declaration (patched_html sample_scripts doc) = 2.
Proof. vm_compute. reflexivity. Qed.

(** *** Patching a patched text *)

(** The replacement of the first match is part of the result. *)
Lemma re_sub_search (p : regex) (repl : rmatch -> str) (t : str) m :
  re_search p t = Some m ->
  exists pre tail, re_sub p repl t = pre ++ repl m ++ tail.
Proof.
  unfold re_sub. induction t as [|c t IH]; simpl.
  - destruct (match_at p []) as [m0|]; [|discriminate].
    intros [= <-]. exists [], []. reflexivity.
  - destruct (match_at p (c :: t)) as [m0|].
    + intros [= <-]. exists []. eexists. reflexivity.
    + intros H. destruct (IH H) as (pre & tail & ->).
      exists (c :: pre), tail. reflexivity.
Qed.

Lemma end_match_intro (w1 w2 s : str) :
  forallb is_space w1 = true -> forallb is_space w2 = true ->
  1 <= length w1 -> 1 <= length w2 ->
  match_at script_end_pattern
    (lit end_start ++ w1 ++ lit end_init ++ w2 ++ lit end_tag ++ s) <> None.
Proof.
  intros H1 H2 L1 L2. unfold match_at.
  destruct (re_match _ 0 _) eqn:E; [discriminate|]. exfalso. revert E.
  unfold script_end_pattern, chars. rewrite re_match_paren, re_match_chars.
  rewrite re_match_rep.
  destruct (backtrack _ 1 _) eqn:E1; [discriminate|]. exfalso.
  rewrite backtrack_none in E1.
  specialize (E1 (length w1) (conj L1 (span_app _ _ _ H1))).
  rewrite skipn_app_length, re_match_chars in E1.
  change ([Rep is_space 1; Paren] ++ ?r) with ([Rep is_space 1] ++ [Paren] ++ r) in E1.
  rewrite re_match_rep in E1.
  rewrite backtrack_none in E1.
  specialize (E1 (length w2) (conj L2 (span_app _ _ _ H2))).
  rewrite skipn_app_length in E1.
  rewrite !re_match_paren, re_match_chars in E1. discriminate.
Qed.

Lemma end_match_shape (u : str) (m : rmatch) :
  match_at script_end_pattern u = Some m ->
  exists w1 w2 s,
    u = lit end_start ++ w1 ++ lit end_init ++ w2 ++ lit end_tag ++ s /\
    forallb is_space w1 = true /\ forallb is_space w2 = true /\
    1 <= length w1 /\ 1 <= length w2 /\
    group 1 m ++ group 2 m = lit end_start ++ w1 ++ lit end_init ++ w2 ++ lit end_tag.
Proof.
  unfold match_at, script_end_pattern, chars.
  destruct (re_match _ 0 u) as [os|] eqn:E; [|discriminate].
  intros [= <-].
  apply (shape_end_inv (lit end_start) (lit end_init) (lit end_tag)) in E
    as (w1 & w2 & s & -> & H1 & H2 & L1 & L2 & ->).
  exists w1, w2, s. repeat (split; [assumption || reflexivity|]).
  pose proof (groups_init (lit end_start ++ w1 ++ lit end_init) w2 (lit end_tag) s) as G.
  cbv zeta in G. rewrite <- !app_assoc in G. destruct G as (-> & -> & _).
  now rewrite <- !app_assoc.
Qed.

Lemma end_anchor_kept scripts (t : str) :
  re_search script_end_pattern t <> None ->
  re_search script_end_pattern (embed_block scripts t) <> None.
Proof.
  destruct (re_search script_end_pattern t) as [m|] eqn:E; [intros _|congruence].
  destruct (re_sub_search _ (insert_embedded_code scripts) _ _ E) as (pre & tail & Hs).
  apply re_search_some in E as (i & _ & Hm).
  destruct (end_match_shape _ _ Hm) as (w1 & w2 & s & _ & H1 & H2 & L1 & L2 & G).
  unfold embed_block. rewrite Hs. unfold insert_embedded_code.
  rewrite G. intros Hnone. rewrite re_search_none in Hnone.
  specialize (Hnone (length (pre ++ embedded_block scripts))).
  rewrite <- !app_assoc in Hnone.
  rewrite (app_assoc pre), skipn_app_length in Hnone.
  rewrite <- ?app_assoc in Hnone.
  revert Hnone. now apply end_match_intro.
Qed.

Lemma init_anchor_kept (t : str) :
  re_search init_function_pattern t <> None ->
  re_search init_function_pattern (embed_call t) <> None.
Proof.
  destruct (re_search init_function_pattern t) as [m|] eqn:E; [intros _|congruence].
  destruct (re_sub_search _ replace_init _ _ E) as (pre & tail & Hs).
  apply re_search_some in E as (i & _ & Hm).
  destruct (replace_init_keeps _ _ Hm) as (q & Hq & Hr & _).
  apply init_anchor_found. unfold embed_call. rewrite Hs, Hr.
  exists pre, (q ++ loader_call), tail. split; [now rewrite <- !app_assoc|].
  intros Hin. apply in_app_or in Hin as [Hin|Hin]; [contradiction|].
  vm_compute in Hin. intuition discriminate.
Qed.

(** X3.  The second substitution is not idempotent: a text in which
    it inserted a loader call still holds the init anchor, so applied
    to its own result it inserts a call again. *)
Theorem call_inserted_again (t : str) :
  embed_call t <> t -> embed_call (embed_call t) <> embed_call t.
Proof.
  intros H.
  apply (re_sub_changes _ _ (length loader_call) replace_init_longer);
    [vm_compute; lia|].
  apply init_anchor_kept. intros Hnone. apply H. now apply re_sub_absent.
Qed.

Lemma call_inserted_again_witness :
  embed_call (embed_call plain_doc) <> embed_call plain_doc.
Proof. apply call_inserted_again. vm_compute. discriminate. Defined.

(** X4.  The first substitution is not idempotent either: a text in
    which it inserted a block still holds the script-end anchor, so
    applied again, with whatever scripts, it inserts a further block. *)
Theorem block_inserted_again scripts scripts' (t : str) :
  embed_block scripts t <> t ->
  embed_block scripts' (embed_block scripts t) <> embed_block scripts t.
Proof.
  intros H.
  apply (re_sub_changes _ _ (length (embedded_block scripts'))
           (insert_embedded_code_longer scripts')).
  - unfold embedded_block. rewrite length_app. simpl. lia.
  - apply end_anchor_kept. intros Hnone. apply H. now apply re_sub_absent.
Qed.

Lemma block_inserted_again_witness :
  embed_block [] (embed_block sample_scripts plain_doc)
  <> embed_block sample_scripts plain_doc.
Proof. apply block_inserted_again. vm_compute. discriminate. Defined.

(** ** The extractor on every text *)

Lemma marker_list (word : string) (pre ws1 w ws2 value rest : str) :
  starts_with_no_space (lit word) -> lit word <> [] ->
  ~ In hash pre ->
  forallb is_space ws1 = true ->
  same_word (lit word) w ->
  forallb is_space ws2 = true ->
  forallb is_dot value = true ->
  starts_with_no_space (value ++ rest) ->
  ends_line rest ->
  files_of_match
    (re_search (marker_regex word) (pre ++ hash :: ws1 ++ w ++ ws2 ++ value ++ rest))
  = file_list value.
Proof.
  intros Hw0 Hne Hpre H1 Hw H2 Hv Hs He.
  destruct (marker_match word ws1 w ws2 value rest) as (m & Hm & Hg); try assumption.
  rewrite (re_search_first _ pre _ m); [|now apply no_marker_without_hash | exact Hm].
  now rewrite files_of_match_value, Hg.
Qed.

(** X5.  The user-files list is read from the first comment only: when
    the first hash sign of the text opens a [user_files] comment, in
    any letter case and with any white space after the hash sign and
    after the colon, the list is the tokens of the rest of the line on
    which the first character behind that white space stands.  What
    follows that line, later [user_files] comments included, plays no
    part. *)
Theorem first_user_files_comment_decides (pre ws1 w ws2 value rest : str) :
  ~ In hash pre ->
  forallb is_space ws1 = true ->
  same_word (lit "user_files:") w ->
  forallb is_space ws2 = true ->
  forallb is_dot value = true ->
  starts_with_no_space (value ++ rest) ->
  ends_line rest ->
  fst (parse_required_files (pre ++ hash :: ws1 ++ w ++ ws2 ++ value ++ rest))
  = file_list value.
Proof.
  intros. unfold parse_required_files. cbn [fst].
  change user_files_regex with (marker_regex "user_files:").
  apply marker_list; try assumption; [reflexivity | discriminate].
Qed.

Lemma first_user_files_comment_decides_witness :
  fst (parse_required_files
         (lit "import os" ++ nl :: hash :: lit " " ++ lit "User_Files:" ++ lit "  " ++
          lit "a.csv , b.txt" ++ (nl :: lit "# user_files: c.txt")))
  = file_list (lit "a.csv , b.txt").
Proof.
  apply (first_user_files_comment_decides (lit "import os" ++ [nl]) (lit " ")
           (lit "User_Files:") (lit "  ") (lit "a.csv , b.txt")
           (nl :: lit "# user_files: c.txt")).
  - vm_compute. intuition discriminate.
  - reflexivity.
  - repeat constructor.
  - reflexivity.
  - reflexivity.
  - reflexivity.
  - reflexivity.
Defined.

(** X6.  The process-files list is read in the same way from the first
    comment whose word is [process_files], by its own search: when the
    first hash sign of the text opens that comment, the list is the
    tokens of the rest of the line on which the first character behind
    the white space after the colon stands. *)
Theorem first_process_files_comment_decides (pre ws1 w ws2 value rest : str) :
  ~ In hash pre ->
  forallb is_space ws1 = true ->
  same_word (lit "process_files:") w ->
  forallb is_space ws2 = true ->
  forallb is_dot value = true ->
  starts_with_no_space (value ++ rest) ->
  ends_line rest ->
  snd (parse_required_files (pre ++ hash :: ws1 ++ w ++ ws2 ++ value ++ rest))
  = file_list value.
Proof.
  intros. unfold parse_required_files. cbn [snd].
  change process_files_regex with (marker_regex "process_files:").
  apply marker_list; try assumption; [reflexivity | discriminate].
Qed.

Lemma first_process_files_comment_decides_witness :
  snd (parse_required_files
         (lit "x = 1" ++ nl :: hash :: [] ++ lit "PROCESS_FILES:" ++ lit " " ++
          lit "out.csv,,tmp.bin " ++ []))
  = file_list (lit "out.csv,,tmp.bin ").
Proof.
  apply (first_process_files_comment_decides (lit "x = 1" ++ [nl]) []
           (lit "PROCESS_FILES:") (lit " ") (lit "out.csv,,tmp.bin ") []).
  - vm_compute. intuition discriminate.
  - reflexivity.
  - repeat constructor.
  - reflexivity.
  - reflexivity.
  - reflexivity.
  - exact I.
Defined.

(** X7.  A comment [# user_files: a, b] that the first hash sign of the
    text opens gives the list [a; b]: the letter case of the marker
    word, the white space after the hash sign, after the colon and
    around the two tokens, and the text before the comment and after
    its line make no difference. *)
Theorem user_files_pair (pre ws1 w ws2 a s1 s2 b s3 rest : str) :
  ~ In hash pre ->
  forallb is_space ws1 = true ->
  same_word (lit "user_files:") w ->
  forallb is_space ws2 = true ->
  token a -> token b -> ~ In comma a -> ~ In comma b ->
  forallb is_space s1 = true -> forallb is_space s2 = true ->
  forallb is_space s3 = true ->
  forallb is_dot (a ++ s1 ++ comma :: s2 ++ b ++ s3) = true ->
  ends_line rest ->
  fst (parse_required_files
         (pre ++ hash :: ws1 ++ w ++ ws2 ++ (a ++ s1 ++ comma :: s2 ++ b ++ s3) ++ rest))
  = [a; b].
Proof. apply user_files_a_b. Qed.

Lemma user_files_pair_witness :
  fst (parse_required_files
         (lit "import os" ++ [nl] ++ hash :: lit "  " ++ lit "USER_Files:" ++ lit "   " ++
          (lit "a.csv" ++ lit " " ++ comma :: [] ++ lit "b.txt" ++ lit "  ") ++
          (nl :: lit "x=1")))
  = [lit "a.csv"; lit "b.txt"].
Proof.
  apply (user_files_pair (lit "import os" ++ [nl]) (lit "  ") (lit "USER_Files:")
           (lit "   ") (lit "a.csv") (lit " ") [] (lit "b.txt") (lit "  ")
           (nl :: lit "x=1")).
  - vm_compute. intuition discriminate.
  - reflexivity.
  - repeat constructor.
  - reflexivity.
  - vm_compute. intuition discriminate.
  - vm_compute. intuition discriminate.
  - vm_compute. intuition discriminate.
  - vm_compute. intuition discriminate.
  - reflexivity.
  - reflexivity.
  - reflexivity.
  - reflexivity.
  - reflexivity.
Defined.

(** X8.  A text without any hash sign has neither marker: both lists
    are empty. *)
Theorem no_hash_no_files (text : str) :
  ~ In hash text -> parse_required_files text = ([], []).
Proof. apply no_marker_no_files. Qed.

Lemma no_hash_no_files_witness :
  parse_required_files (lit "user_files: a, b" ++ nl :: lit "print(1)") = ([], []).
Proof. apply no_hash_no_files. vm_compute. intuition discriminate. Defined.

(** *** What every returned name looks like *)

Lemma re_match_chars_i_inv (l : str) (q : regex) pos (t : str) os :
  re_match (map (fun p => Chr (ignorecase p)) l ++ q) pos t = Some os ->
  exists w u, t = w ++ u /\ length w = length l /\
              re_match q (pos + length l) u = Some os.
Proof.
  revert pos t; induction l as [|c l IH]; intros pos t; simpl.
  - intros H. exists [], t. now rewrite Nat.add_0_r.
  - destruct t as [|x t]; [discriminate|].
    destruct (ignorecase c x); [|discriminate].
    intros H. destruct (IH _ _ H) as (w & u & -> & Hl & Hu).
    exists (x :: w), u. split; [reflexivity|]. split; [simpl; lia|].
    rewrite <- Hu. f_equal. lia.
Qed.

(** The group of a marker match holds no line feed. *)
Lemma marker_group_one_line (word : string) (u : str) (m : rmatch) :
  match_at (marker_regex word) u = Some m -> forallb is_dot (group 1 m) = true.
Proof.
  unfold match_at, marker_regex, chars_i.
  destruct (re_match _ 0 u) as [os|] eqn:E; [|discriminate]. intros [= <-].
  apply re_match_chars_i_inv in E as (w0 & u1 & -> & L0 & E).
  rewrite re_match_rep in E.
  apply backtrack_some in E as (k1 & [_ Hk1] & E & _).
  apply re_match_chars_i_inv in E as (w1 & u2 & Hu2 & L1 & E).
  change [Rep is_space 0; Paren; Rep is_dot 0; Paren]
    with ([Rep is_space 0] ++ [Paren] ++ [Rep is_dot 0] ++ [Paren]) in E.
  rewrite re_match_rep in E.
  apply backtrack_some in E as (k2 & [_ Hk2] & E & _).
  rewrite re_match_paren in E.
  destruct (re_match _ _ (skipn k2 u2)) as [os'|] eqn:E'; [|discriminate].
  apply some_eq in E. subst os.
  rewrite re_match_rep in E'.
  apply backtrack_some in E' as (k3 & [_ Hk3] & E' & _).
  cbn [re_match] in E'. apply some_eq in E'. subst os'.
  pose proof (span_le is_space u1) as Hle1. pose proof (span_le is_space u2) as Hle2.
  set (o := 0 + length (lit "#") + k1 + length (lit word) + k2) in *.
  assert (Hsplit : w0 ++ u1 = (w0 ++ firstn k1 u1 ++ w1 ++ firstn k2 u2) ++ skipn k2 u2).
  { rewrite <- !app_assoc. f_equal.
    rewrite <- (firstn_skipn k1 u1) at 1. f_equal. rewrite Hu2. f_equal.
    symmetry. apply firstn_skipn. }
  assert (Ho : length (w0 ++ firstn k1 u1 ++ w1 ++ firstn k2 u2) = o).
  { unfold o. rewrite !length_app, L0, L1, !firstn_length_le by lia. lia. }
  unfold group. cbn [m_text m_offs nth Nat.mul Nat.add].
  unfold slice. rewrite Hsplit, <- Ho, skipn_app_length.
  replace (length (w0 ++ firstn k1 u1 ++ w1 ++ firstn k2 u2) + k3
           - length (w0 ++ firstn k1 u1 ++ w1 ++ firstn k2 u2)) with k3 by lia.
  now apply span_firstn.
Qed.

Lemma split_pieces (sep : char) (t g : str) :
  In g (split sep t) -> ~ In sep g /\ (forall c, In c g -> In c t).
Proof.
  revert g; induction t as [|c t IH]; intros g; simpl.
  - intros [<-|[]]. split; [intros [] | intros ? []].
  - destruct (N.eqb_spec c sep) as [->|Hc].
    + intros [<-|H]; [split; [intros [] | intros ? []]|].
      destruct (IH _ H) as [H1 H2]. split; [exact H1|]. intros x Hx. right. now apply H2.
    + destruct (split sep t) as [|h r] eqn:E.
      * intros [<-|[]]. split; [intros [E1|[]]; congruence | intros x [<-|[]]; now left].
      * intros [<-|H].
        -- destruct (IH h (or_introl eq_refl)) as [H1 H2]. split.
           ++ intros [E1|E1]; [congruence | contradiction].
           ++ intros x [<-|Hx]; [now left | right; now apply H2].
        -- destruct (IH g (or_intror H)) as [H1 H2]. split; [exact H1|].
           intros x Hx. right. now apply H2.
Qed.

(** [lstrip] cuts white space off the front and nothing else. *)
Lemma lstrip_suffix (t : str) :
  exists s, t = s ++ lstrip t /\ forallb is_space s = true /\
            starts_with_no_space (lstrip t).
Proof.
  induction t as [|c t (s & Ht & Hs & Hn)]; simpl.
  - exists []. repeat split.
  - destruct (is_space c) eqn:E.
    + exists (c :: s). simpl. rewrite E, Hs. split; [now f_equal | now split].
    + exists []. simpl. now repeat split.
Qed.

Lemma strip_token (g : str) : strip g <> [] -> token (strip g).
Proof.
  unfold strip, rstrip. intros Hne.
  destruct (lstrip_suffix g) as (s1 & _ & _ & Hx).
  set (x := lstrip g) in *. clearbody x.
  destruct (lstrip_suffix (rev x)) as (s2 & Hy & _ & Hy0).
  set (y := lstrip (rev x)) in *. clearbody y.
  split; [exact Hne|]. split; [|now rewrite rev_involutive].
  assert (Hx' : x = rev y ++ rev s2)
    by (rewrite <- rev_app_distr, <- Hy; symmetry; apply rev_involutive).
  destruct (rev y) as [|c r] eqn:E; [contradiction|].
  rewrite Hx' in Hx. exact Hx.
Qed.

Lemma strip_chars (g : str) (c : char) : In c (strip g) -> In c g.
Proof.
  unfold strip, rstrip. intros H. apply in_rev in H.
  destruct (lstrip_suffix (rev (lstrip g))) as (s2 & Hy & _).
  assert (H2 : In c (rev (lstrip g))) by (rewrite Hy; apply in_or_app; now right).
  apply in_rev in H2.
  destruct (lstrip_suffix g) as (s1 & Hx & _).
  rewrite Hx. apply in_or_app. now right.
Qed.

Lemma file_list_tokens (value f : str) :
  In f (file_list value) ->
  token f /\ ~ In comma f /\ (forall c, In c f -> In c value).
Proof.
  unfold file_list. intros H. apply in_map_iff in H as (g & <- & Hg).
  apply filter_In in Hg as [Hg Hne].
  destruct (split_pieces _ _ _ Hg) as [Hc Hin].
  split; [apply strip_token; destruct (strip g); [discriminate | discriminate]|].
  split.
  - intros H. apply Hc. now apply strip_chars.
  - intros c H. apply Hin. now apply strip_chars.
Qed.

Lemma files_of_match_tokens (word : string) (text f : str) :
  In f (files_of_match (re_search (marker_regex word) text)) ->
  token f /\ ~ In comma f /\ ~ In nl f.
Proof.
  destruct (re_search (marker_regex word) text) as [m|] eqn:E; [|intros []].
  rewrite files_of_match_value. intros H.
  destruct (file_list_tokens _ _ H) as (Ht & Hc & Hin).
  split; [exact Ht|]. split; [exact Hc|]. intros Hnl.
  apply re_search_some in E as (i & _ & Hm).
  apply marker_group_one_line in Hm. rewrite forallb_forall in Hm.
  specialize (Hm _ (Hin _ Hnl)). discriminate.
Qed.

(** X9.  Whatever the text is, every name in either returned list is
    not empty, has no white space at its start or its end, and holds
    neither a comma nor a line feed. *)
Theorem returned_names_are_clean (text f : str) :
  In f (fst (parse_required_files text)) \/ In f (snd (parse_required_files text)) ->
  token f /\ ~ In comma f /\ ~ In nl f.
Proof.
  unfold parse_required_files. cbn [fst snd].
  change user_files_regex with (marker_regex "user_files:").
  change process_files_regex with (marker_regex "process_files:").
  intros [H|H]; eapply files_of_match_tokens; eassumption.
Qed.

Lemma returned_names_are_clean_witness :
  token (lit "b c") /\ ~ In comma (lit "b c") /\ ~ In nl (lit "b c").
Proof.
  apply (returned_names_are_clean (lit "#user_files:  a ,, b c  ,")).
  left. vm_compute. right. left. reflexivity.
Defined.

(** ** The encoder on every text *)

Lemma utf8_char_scalar (c : char) : utf8_char c <> None -> scalar_value c.
Proof.
  unfold utf8_char, scalar_value.
  decide_tests; cbn [andb]; intros Hdef; try lia; now contradiction Hdef.
Qed.

(** X10.  Line 48 raises exactly on a text that holds a surrogate or a
    number beyond U+10FFFF: the encoding exists if and only if every
    code point of the text is a Unicode scalar value. *)
Theorem encode_content_defined_iff (content : str) :
  encode_content content <> None <-> valid_text content.
Proof.
  unfold encode_content. split.
  - intros H. assert (Hu : utf8_encode content <> None)
      by (destruct (utf8_encode content); [discriminate | contradiction]).
    clear H. unfold valid_text. induction content as [|c s IH]; [constructor|].
    simpl in Hu. destruct (utf8_char c) eqn:Ec; [|contradiction].
    destruct (utf8_encode s); [|contradiction].
    constructor; [apply utf8_char_scalar; congruence | apply IH; discriminate].
  - intros Hv. pose proof (utf8_encode_valid _ Hv).
    destruct (utf8_encode content); [discriminate | contradiction].
Qed.

Lemma b64_char_symbol (i : N) : (i < 64)%N -> b64_symbol (b64_char i) = true.
Proof. intros H. unfold b64_symbol. now rewrite b64_index_char. Qed.

Lemma b64encode_shape (bs : list byte) :
  Forall is_byte bs ->
  forallb b64_symbol (b64encode bs) = true /\
  length (b64encode bs) = 4 * ((length bs + 2) / 3).
Proof.
  unfold is_byte.
  induction bs as [|a|a b|a b c l IH] using list_ind3; intros H.
  - split; reflexivity.
  - inversion_clear H. cbn [b64encode forallb length].
    rewrite !b64_char_symbol by lia. split; reflexivity.
  - inversion_clear H as [|? ? Ha H']. inversion_clear H' as [|? ? Hb _].
    cbn [b64encode forallb length].
    rewrite !b64_char_symbol by lia. split; reflexivity.
  - inversion_clear H as [|? ? Ha H']. inversion_clear H' as [|? ? Hb H''].
    inversion_clear H'' as [|? ? Hc Hl].
    destruct (IH Hl) as [IH1 IH2].
    cbn [b64encode forallb length].
    rewrite !b64_char_symbol by lia. rewrite IH1, IH2. split; [reflexivity|].
    replace (S (S (S (length l))) + 2) with ((length l + 2) + 1 * 3) by lia.
    rewrite Nat.div_add by lia. lia.
Qed.

(** X11.  The encoded content of a text is made of characters of the
    base64 alphabet and the padding sign only, and it has four
    characters for every three bytes of the UTF-8 form of the text,
    rounded up. *)
Theorem encoded_content_shape (content encoded : str) :
  encode_content content = Some encoded ->
  forallb b64_symbol encoded = true /\
  exists bytes, utf8_encode content = Some bytes /\
                length encoded = 4 * ((length bytes + 2) / 3).
Proof.
  unfold encode_content. destruct (utf8_encode content) as [bs|] eqn:E; [|discriminate].
  intros H. apply some_eq in H. subst encoded.
  destruct (b64encode_shape bs (utf8_encode_bytes _ _ E)) as [H1 H2].
  split; [exact H1|]. now exists bs.
Qed.

Lemma encoded_content_shape_witness :
  forallb b64_symbol (lit "cGFzcw==") = true /\
  exists bytes, utf8_encode (lit "pass") = Some bytes /\
                length (lit "cGFzcw==") = 4 * ((length bytes + 2) / 3).
Proof. apply (encoded_content_shape (lit "pass")). vm_compute. reflexivity. Defined.

Lemma escape_b64_symbol (c : char) : b64_symbol c = true -> escape_char c = [c].
Proof.
  unfold b64_symbol, b64_index, b64_pad, escape_char.
  decide_tests; cbn [andb]; try discriminate; try reflexivity; intros _; lia.
Qed.

(** X12.  JSON escaping leaves an encoded content as it is: in the data
    declaration the [content_b64] value stands between its two quotes
    character for character, so [atob] receives exactly what line 48
    produced. *)
Theorem encoded_content_verbatim (content encoded : str) :
  encode_content content = Some encoded ->
  dumps (JString encoded) = dquote :: encoded ++ [dquote].
Proof.
  intros H. destruct (encoded_content_shape _ _ H) as [Hs _].
  unfold dumps. cbn [dumps_level]. unfold encode_basestring_ascii. do 2 f_equal.
  clear H. induction encoded as [|c e IH]; [reflexivity|].
  cbn [forallb] in Hs. apply andb_true_iff in Hs as [Hc He].
  cbn [flat_map]. rewrite (escape_b64_symbol _ Hc), (IH He). reflexivity.
Qed.

Lemma encoded_content_verbatim_witness :
  dumps (JString (lit "cGFzcw==")) = dquote :: lit "cGFzcw==" ++ [dquote].
Proof. apply (encoded_content_verbatim (lit "pass")). vm_compute. reflexivity. Defined.

Lemma utf8_char_length (c : char) bs :
  utf8_char c = Some bs ->
  1 <= length bs /\ (length bs = 1 -> is_ascii c = true) /\
  (is_ascii c = true -> bs = [c]).
Proof.
  unfold utf8_char, is_ascii.
  decide_tests; cbn [andb]; try discriminate; intro_some; cbn [length];
    repeat split; try lia; try reflexivity; try discriminate; intros; lia.
Qed.

Lemma utf8_encode_length (s : str) bs :
  utf8_encode s = Some bs ->
  length s <= length bs /\
  (length bs = length s -> forallb is_ascii s = true) /\
  (forallb is_ascii s = true -> bs = s).
Proof.
  revert bs; induction s as [|c s IH]; simpl; intros bs.
  - intro_some. repeat split; auto.
  - destruct (utf8_char c) as [b1|] eqn:E; [|discriminate].
    destruct (utf8_encode s) as [b2|]; [|discriminate].
    intro_some. destruct (utf8_char_length _ _ E) as (L1 & A1 & I1).
    destruct (IH _ eq_refl) as (L2 & A2 & I2).
    rewrite length_app. split; [lia|]. split.
    + intros HL. rewrite A1, A2 by lia. reflexivity.
    + intros HA. apply andb_true_iff in HA as [Hc Hs].
      rewrite (I1 Hc), (I2 Hs). reflexivity.
Qed.

(** X13.  The loader routine decodes a content with [atob] alone, which
    undoes the base64 step and gives the UTF-8 bytes of the text.  What
    it gives is the text that was encoded if and only if that text is
    ASCII. *)
Theorem atob_gives_text_iff_ascii (content encoded : str) :
  encode_content content = Some encoded ->
  (b64decode encoded = Some content <-> forallb is_ascii content = true).
Proof.
  unfold encode_content. destruct (utf8_encode content) as [bs|] eqn:E; [|discriminate].
  intros H. apply some_eq in H. subst encoded.
  rewrite (b64decode_encode bs (utf8_encode_bytes _ _ E)).
  destruct (utf8_encode_length _ _ E) as (_ & HA & HI).
  split.
  - intros H. apply some_eq in H. apply HA. now rewrite H.
  - intros H. now rewrite (HI H).
Qed.

Lemma atob_gives_text_iff_ascii_witness :
  b64decode (lit "w6k=") = Some [233%N] <-> forallb is_ascii [233%N] = true.
Proof. apply atob_gives_text_iff_ascii. vm_compute. reflexivity. Defined.

(** ** The data declaration on every list of scripts *)

Lemma json_induction (P : json -> Prop) :
  (forall s, P (JString s)) ->
  (forall items, Forall P items -> P (JArray items)) ->
  (forall members, Forall (fun kv => P (snd kv)) members -> P (JObject members)) ->
  forall v, P v.
Proof.
  intros HS HA HO. fix IH 1. intros [s|items|members].
  - apply HS.
  - apply HA. induction items as [|x items IHl]; constructor; [apply IH | exact IHl].
  - apply HO. induction members as [|[k x] members IHl]; constructor;
      [apply IH | exact IHl].
Qed.

Lemma hex_digit_ascii (d : N) : (d < 16)%N -> ascii_out (hex_digit d) = true.
Proof.
  unfold hex_digit, ascii_out. intros H.
  decide_tests; cbn [andb orb]; try reflexivity; lia.
Qed.

Lemma hex4_ascii (n : N) : forallb ascii_out (hex4 n) = true.
Proof.
  unfold hex4. cbn [forallb].
  rewrite !hex_digit_ascii by (apply N.mod_lt; discriminate). reflexivity.
Qed.

Lemma escape_char_ascii (c : char) : forallb ascii_out (escape_char c) = true.
Proof.
  unfold escape_char.
  do 7 (match goal with
        | |- context [if (c =? ?k)%N then _ else _] =>
            destruct (c =? k)%N; [reflexivity|]
        end).
  destruct ((32 <=? c) && (c <=? 126))%N eqn:E.
  - cbn [forallb]. unfold ascii_out. now rewrite E.
  - destruct (c <? 65536)%N.
    + change (backslash :: lit "u" ++ hex4 c) with ([backslash; 117%N] ++ hex4 c).
      rewrite forallb_app, hex4_ascii. reflexivity.
    + cbv zeta.
      match goal with
      | |- forallb _ (backslash :: lit "u" ++ hex4 ?a ++ backslash :: lit "u" ++ hex4 ?b) = _ =>
          change (backslash :: lit "u" ++ hex4 a ++ backslash :: lit "u" ++ hex4 b)
            with ([backslash; 117%N] ++ hex4 a ++ [backslash; 117%N] ++ hex4 b)
      end.
      rewrite !forallb_app, !hex4_ascii. reflexivity.
Qed.

Lemma encode_basestring_ascii_ascii (s : str) :
  forallb ascii_out (encode_basestring_ascii s) = true.
Proof.
  unfold encode_basestring_ascii. cbn [forallb]. rewrite forallb_app.
  cbn [forallb]. rewrite andb_true_r. change (ascii_out dquote) with true. cbn [andb].
  induction s as [|c s IH]; [reflexivity|].
  cbn [flat_map]. now rewrite forallb_app, escape_char_ascii, IH.
Qed.

Lemma newline_indent_ascii (level : nat) : forallb ascii_out (newline_indent level) = true.
Proof.
  unfold newline_indent. cbn [forallb]. change (ascii_out nl) with true. cbn [andb].
  induction (8 * level) as [|n IH]; [reflexivity|]. cbn [repeat forallb]. now rewrite IH.
Qed.

Ltac split_ands :=
  rewrite ?forallb_app, ?andb_true_iff; repeat split.

Lemma dumps_level_ascii (v : json) :
  forall level, forallb ascii_out (dumps_level level v) = true.
Proof.
  induction v as [s|items IH|members IH] using json_induction; intros level.
  - apply encode_basestring_ascii_ascii.
  - destruct IH as [|x xs Hx Hxs]; [reflexivity|].
    cbn [dumps_level]. split_ands;
      try reflexivity; try apply newline_indent_ascii; try apply Hx.
    induction Hxs as [|y ys Hy _ IHl]; [reflexivity|].
    split_ands; try reflexivity; try apply newline_indent_ascii;
      [apply Hy | exact IHl].
  - destruct IH as [|[k x] ms Hx Hms]; [reflexivity|]. cbn [snd] in Hx.
    cbn [dumps_level]. split_ands;
      try reflexivity; try apply newline_indent_ascii; try apply Hx;
      try apply encode_basestring_ascii_ascii.
    induction Hms as [|[k' y] ys Hy _ IHl]; [reflexivity|]. cbn [snd] in Hy.
    split_ands; try reflexivity; try apply newline_indent_ascii;
      try apply encode_basestring_ascii_ascii; [apply Hy | exact IHl].
Qed.

(** X14.  Whatever the names, contents and file lists of the scripts
    are, the block put into the document is made of printable ASCII
    characters and line feeds only: [json.dumps] escapes every other
    character of the data, and the rest of the block is fixed text. *)
Theorem embedded_block_is_ascii (scripts : list script_info) :
  forallb ascii_out (embedded_block scripts) = true.
Proof.
  unfold embedded_block, scripts_js, dumps.
  change (?a ++ nl :: ?b) with (a ++ [nl] ++ b).
  split_ands; try apply dumps_level_ascii; vm_compute; reflexivity.
Qed.

(** ** The collection loop on every directory *)

Lemma writes_collect (d : directory) : writes (collect_python_scripts d) = [].
Proof.
  rewrite collect_run. unfold writes. cbn [events flat_map app].
  induction (candidates d); [reflexivity | assumption].
Qed.

Lemma records_count (d : directory) (paths : list str) :
  length (records_of d paths) <= length paths.
Proof.
  unfold records_of. induction paths as [|n l IH]; [simpl; lia|].
  cbn [flat_map length]. rewrite length_app.
  destruct (record_of d n); simpl; lia.
Qed.

(** X15.  Whatever the directory holds, unreadable files and
    directories named like scripts included, [collect_python_scripts]
    raises nothing, writes nothing and leaves the directory as it was;
    it returns at most one record for each candidate. *)
Theorem collect_never_raises (d : directory) :
  exists scripts,
    value (collect_python_scripts d) = Ok scripts /\
    final (collect_python_scripts d) = d /\
    writes (collect_python_scripts d) = [] /\
    length scripts <= length (candidates d).
Proof.
  exists (records_of d (candidates d)). rewrite writes_collect, collect_run.
  cbn [value final]. repeat split. apply records_count.
Qed.

Lemma record_decodes (d : directory) (n : str) (s : script_info) :
  record_of d n = Some s ->
  name s = n /\
  exists content, text_of d n = Some content /\
                  decode_content (content_b64 s) = Some content.
Proof.
  unfold record_of. destruct (text_of d n) as [content|]; [|discriminate].
  unfold encode_content, decode_content.
  destruct (utf8_encode content) as [bs|] eqn:E; [|discriminate].
  intros H. apply some_eq in H. subst s. cbn [name content_b64].
  split; [reflexivity|]. exists content. split; [reflexivity|].
  rewrite (b64decode_encode bs (utf8_encode_bytes _ _ E)).
  exact (utf8_decode_encode _ _ E).
Qed.

(** X16.  Every record that [collect_python_scripts] returns carries
    the text of its file: decoding the record's [content_b64] (base64,
    then UTF-8) gives exactly what reading the file named by the record
    gives. *)
Theorem record_carries_file_text (d : directory) (scripts : list script_info)
  (s : script_info) :
  value (collect_python_scripts d) = Ok scripts ->
  In s scripts ->
  exists content,
    text_of d (name s) = Some content /\
    decode_content (content_b64 s) = Some content.
Proof.
  rewrite collect_run. cbn [value]. intros [= <-] Hs.
  unfold records_of in Hs. apply in_flat_map in Hs as (n & _ & Hs).
  destruct (record_of d n) as [r|] eqn:E; [|contradiction].
  destruct Hs as [<-|[]].
  destruct (record_decodes _ _ _ E) as (-> & content & Ht & Hd).
  now exists content.
Qed.

Lemma record_carries_file_text_witness :
  exists content,
    text_of dir_mixed (lit "b.py") = Some content /\
    decode_content (lit "IyB1c2VyX2ZpbGVzOiBpbi5jc3YKcHJpbnQoMSk=") = Some content.
Proof.
  apply (record_carries_file_text dir_mixed (records_of dir_mixed (candidates dir_mixed))
           {| name := lit "b.py";
              content_b64 := lit "IyB1c2VyX2ZpbGVzOiBpbi5jc3YKcHJpbnQoMSk=";
              userFiles := [lit "in.csv"]; processFiles := [] |}).
  - vm_compute. reflexivity.
  - vm_compute. left. reflexivity.
Defined.

(** X17.  In a directory whose entries have distinct names, the records
    have distinct names: no two records share the key under which the
    loader registers a script. *)
Theorem record_names_distinct (d : directory) (scripts : list script_info) :
  NoDup (map fst d) ->
  value (collect_python_scripts d) = Ok scripts ->
  NoDup (map name scripts).
Proof.
  intros Hd. rewrite collect_run. cbn [value]. intros [= <-].
  rewrite records_names. unfold candidates.
  now repeat apply NoDup_filter.
Qed.

Lemma record_names_distinct_witness :
  NoDup (map name (records_of dir_mixed (candidates dir_mixed))).
Proof.
  apply (record_names_distinct dir_mixed).
  - vm_compute. repeat (constructor; [simpl; intuition discriminate|]). constructor.
  - vm_compute. reflexivity.
Defined.

(** ** create_embedded_browserbox with any two paths *)

Lemma create_outcome (scripts : list script_info) (i o : str) (d : directory) :
  create_embedded_browserbox scripts i o d
  = match text_of d i with
    | None => {| events := [EvRead i]; final := d; value := Raise (ReadError i) |}
    | Some doc =>
        match lookup o d with
        | Some Dir =>
            {| events := [EvRead i]; final := d; value := Raise (WriteError o) |}
        | _ =>
            {| events := [EvRead i; EvWrite o (patched_html scripts doc);
                          EvPrint (MsgCreated o (length scripts))];
               final := store o (File (Some (patched_html scripts doc))) d;
               value := Ok o |}
        end
    end.
Proof.
  unfold text_of.
  unfold create_embedded_browserbox, bind, read_text, write_text, print, emit, ret.
  cbn [value final events].
  destruct (lookup i d) as [[[content|]|]|]; try reflexivity.
  cbn [value final events].
  destruct (lookup o d) as [[?|]|]; reflexivity.
Qed.

(** X18.  [create_embedded_browserbox] reads the input file before
    anything else and does not catch what the read raises: when the
    input file cannot be read, whatever the scripts and the output path
    are, the call raises the read error and has done nothing but the
    attempt to read; the directory, an existing output file included,
    is as it was. *)
Theorem create_unreadable_input_raises (scripts : list script_info) (i o : str)
  (d : directory) :
  text_of d i = None ->
  create_embedded_browserbox scripts i o d
  = {| events := [EvRead i]; final := d; value := Raise (ReadError i) |}.
Proof. intros H. rewrite create_outcome, H. reflexivity. Qed.

Lemma create_unreadable_input_raises_witness :
  create_embedded_browserbox sample_scripts input_name (lit "a.py") dir_document_is_dir
  = {| events := [EvRead input_name]; final := dir_document_is_dir;
       value := Raise (ReadError input_name) |}.
Proof. apply create_unreadable_input_raises. vm_compute. reflexivity. Defined.

(** X19.  When [create_embedded_browserbox] returns, it returns the
    output path; it has read the input file, written the output path
    once with the patched text of the input, and printed one line with
    the number of scripts.  The output path then holds the patched
    text, also when it is the input path, and every other entry of the
    directory is as it was. *)
Theorem create_returns_output (scripts : list script_info) (i o : str)
  (d : directory) (v : str) :
  value (create_embedded_browserbox scripts i o d) = Ok v ->
  v = o /\
  exists doc,
    text_of d i = Some doc /\
    writes (create_embedded_browserbox scripts i o d)
    = [(o, patched_html scripts doc)] /\
    printed (create_embedded_browserbox scripts i o d)
    = [MsgCreated o (length scripts)] /\
    text_of (final (create_embedded_browserbox scripts i o d)) o
    = Some (patched_html scripts doc) /\
    forall n, n <> o ->
      lookup n (final (create_embedded_browserbox scripts i o d)) = lookup n d.
Proof.
  rewrite create_outcome.
  destruct (text_of d i) as [doc|]; [|discriminate].
  destruct (lookup o d) as [[c|]|] eqn:Eo; cbn [value]; try discriminate;
    intros [= <-]; (split; [reflexivity|]); exists doc;
    (split; [reflexivity|]); (split; [reflexivity|]); (split; [reflexivity|]);
    cbn [final]; (split; [unfold text_of; now rewrite lookup_store|]);
    intros n Hn; now apply lookup_store_other.
Qed.

Lemma create_returns_output_witness :
  input_name = input_name /\
  exists doc,
    text_of dir_bare input_name = Some doc /\
    writes (create_embedded_browserbox sample_scripts input_name input_name dir_bare)
    = [(input_name, patched_html sample_scripts doc)] /\
    printed (create_embedded_browserbox sample_scripts input_name input_name dir_bare)
    = [MsgCreated input_name (length sample_scripts)] /\
    text_of (final (create_embedded_browserbox sample_scripts input_name input_name
                      dir_bare)) input_name
    = Some (patched_html sample_scripts doc) /\
    forall n, n <> input_name ->
      lookup n (final (create_embedded_browserbox sample_scripts input_name input_name
                         dir_bare)) = lookup n dir_bare.
Proof. apply create_returns_output. vm_compute. reflexivity. Defined.

(** ** main on every directory *)

(** X20.  A run of [main] changes no entry of the directory other than
    BrowserBox_with_scripts.html: the scripts and the target document
    are as they were, whatever the run did. *)
Theorem main_touches_output_only (d : directory) (n : str) :
  n <> output_name -> lookup n (final (main d)) = lookup n d.
Proof.
  intros Hn. destruct (final_main d) as [-> | (text & _ & ->)]; [reflexivity|].
  now apply lookup_store_other.
Qed.

Lemma main_touches_output_only_witness :
  lookup input_name (final (main dir_mixed)) = lookup input_name dir_mixed.
Proof. apply main_touches_output_only. vm_compute. discriminate. Defined.

Lemma writes_closing (scripts : list script_info) (out : str) :
  flat_map (fun e => match e with EvWrite p t => [(p, t)] | _ => [] end)
           (closing_events scripts out) = [].
Proof. rewrite closing_as_prints. apply writes_prints. Qed.

Lemma main_writes (d : directory) :
  writes (main d) = [] \/
  exists doc,
    text_of d input_name = Some doc /\
    lookup output_name d <> Some Dir /\
    records_of d (candidates d) <> [] /\
    writes (main d)
    = [(output_name, patched_html (records_of d (candidates d)) doc)].
Proof.
  rewrite main_run.
  destruct (lookup input_name d) as [x|] eqn:El; [|now left].
  cbv zeta. destruct (records_of d (candidates d)) as [|s l] eqn:Er; cbn [nonempty].
  { left. unfold writes. cbn [events]. rewrite flat_map_app, writes_scan. reflexivity. }
  rewrite create_outcome.
  destruct (text_of d input_name) as [doc|] eqn:Et.
  - destruct (lookup output_name d) as [[c|]|] eqn:Eo; cbn [value events final];
      unfold writes; cbn [events]; rewrite ?flat_map_app, ?writes_scan, ?writes_closing;
      cbn [flat_map app].
    + right. exists doc. repeat split; discriminate.
    + now left.
    + right. exists doc. repeat split; discriminate.
  - left. cbn [value events final]. unfold writes. cbn [events].
    rewrite flat_map_app, writes_scan. reflexivity.
Qed.

(** X21.  Whatever a run of [main] writes, it writes to
    BrowserBox_with_scripts.html, once, and what it writes is the
    patched text of the target document with the collected records:
    a write takes place only when the document could be read, the
    output path is not a directory and at least one record was
    collected. *)
Theorem main_writes_only_if (d : directory) (path text : str) :
  In (path, text) (writes (main d)) ->
  path = output_name /\
  lookup output_name d <> Some Dir /\
  records_of d (candidates d) <> [] /\
  writes (main d) = [(path, text)] /\
  exists doc,
    text_of d input_name = Some doc /\
    text = patched_html (records_of d (candidates d)) doc.
Proof.
  intros Hin. destruct (main_writes d) as [E | (doc & Ht & Ho & Hr & E)].
  - rewrite E in Hin. contradiction.
  - rewrite E in Hin. destruct Hin as [Hin | []].
    assert (path = output_name) as -> by congruence.
    assert (text = patched_html (records_of d (candidates d)) doc) as -> by congruence.
    repeat split; try assumption. exists doc. split; [assumption | reflexivity].
Qed.

Lemma main_writes_only_if_witness :
  output_name = output_name /\
  lookup output_name dir_bare <> Some Dir /\
  records_of dir_bare (candidates dir_bare) <> [] /\
  writes (main dir_bare) = [(output_name, bare_doc)] /\
  exists doc,
    text_of dir_bare input_name = Some doc /\
    bare_doc = patched_html (records_of dir_bare (candidates dir_bare)) doc.
Proof. apply main_writes_only_if. vm_compute. left. reflexivity. Defined.

Lemma reads_scan (d : directory) :
  flat_map (fun e => match e with EvRead p => [p] | _ => [] end) (scan_events d)
  = candidates d.
Proof.
  unfold scan_events. cbn [flat_map app].
  induction (candidates d) as [|n l IH]; [reflexivity|].
  cbn [flat_map app]. now rewrite IH.
Qed.

(** X22.  The existence test of [main] does not make the target
    document readable.  When BrowserBox.html exists but cannot be read
    (it is a directory, or it is not UTF-8 text) and at least one
    script was collected, the run reads and reports every candidate,
    then raises the read error of the document out of [main]: nothing
    is written, the directory is as it was, and no line after the
    reports of the scripts is printed. *)
Theorem unreadable_document_raises (d : directory) :
  lookup input_name d <> None ->
  text_of d input_name = None ->
  records_of d (candidates d) <> [] ->
  value (main d) = Raise (ReadError input_name) /\
  final (main d) = d /\
  writes (main d) = [] /\
  reads (main d) = candidates d ++ [input_name] /\
  printed (main d) = map (report d) (candidates d).
Proof.
  intros Hd Ht Hr. rewrite main_run.
  destruct (lookup input_name d) as [x|]; [|contradiction].
  cbv zeta. destruct (records_of d (candidates d)) as [|s l]; [contradiction|].
  cbn [nonempty]. rewrite create_outcome, Ht. cbn [value events final].
  unfold writes, reads, printed. cbn [events].
  rewrite !flat_map_app, writes_scan, reads_scan, printed_scan. cbn [flat_map app].
  repeat split. apply app_nil_r.
Qed.

Lemma unreadable_document_raises_witness :
  value (main dir_document_is_dir) = Raise (ReadError input_name) /\
  final (main dir_document_is_dir) = dir_document_is_dir /\
  writes (main dir_document_is_dir) = [] /\
  reads (main dir_document_is_dir) = candidates dir_document_is_dir ++ [input_name] /\
  printed (main dir_document_is_dir)
  = map (report dir_document_is_dir) (candidates dir_document_is_dir).
Proof.
  apply unreadable_document_raises.
  - vm_compute. discriminate.
  - vm_compute. reflexivity.
  - vm_compute. discriminate.
Defined.

Lemma record_of_unreadable (d : directory) (n : str) :
  readable d n = false ->
  record_of d n = None /\ report d n = MsgErrorReading n (ReadError n).
Proof.
  unfold readable, report, record_of.
  destruct (text_of d n); [discriminate|]. split; reflexivity.
Qed.

Lemma records_of_unreadable (d : directory) (paths : list str) :
  (forall n, In n paths -> readable d n = false) ->
  records_of d paths = [] /\
  map (report d) paths = map (fun n => MsgErrorReading n (ReadError n)) paths.
Proof.
  unfold records_of. induction paths as [|n l IH]; intros H; [split; reflexivity|].
  destruct IH as [IH1 IH2]; [intros x Hx; apply H; now right|].
  destruct (record_of_unreadable d n (H n (or_introl eq_refl))) as [E1 E2].
  cbn [flat_map map]. rewrite E1, E2, IH1, IH2. split; reflexivity.
Qed.

(** X23.  When the target document exists and there are candidate
    scripts but none of them can be read, the run reports each failure,
    prints the notice that no scripts were found, writes nothing and
    leaves the directory as it was. *)
Theorem unreadable_scripts_no_output (d : directory) :
  lookup input_name d <> None ->
  (forall n, In n (candidates d) -> readable d n = false) ->
  value (main d) = Ok tt /\
  final (main d) = d /\
  writes (main d) = [] /\
  reads (main d) = candidates d /\
  printed (main d)
  = map (fun n => MsgErrorReading n (ReadError n)) (candidates d) ++ [MsgNoScripts].
Proof.
  intros Hd Hu. destruct (records_of_unreadable d (candidates d) Hu) as [Hr Hp].
  clear Hu. rewrite main_run. destruct (lookup input_name d) as [x|]; [|contradiction].
  cbv zeta. rewrite Hr. cbn [nonempty value final].
  unfold writes, reads, printed. cbn [events].
  rewrite !flat_map_app, writes_scan, printed_scan, reads_scan, Hp. cbn [flat_map app].
  repeat split. apply app_nil_r.
Qed.

Lemma unreadable_scripts_no_output_witness :
  value (main dir_unreadable_scripts) = Ok tt /\
  final (main dir_unreadable_scripts) = dir_unreadable_scripts /\
  writes (main dir_unreadable_scripts) = [] /\
  reads (main dir_unreadable_scripts) = candidates dir_unreadable_scripts /\
  printed (main dir_unreadable_scripts)
  = map (fun n => MsgErrorReading n (ReadError n)) (candidates dir_unreadable_scripts)
    ++ [MsgNoScripts].
Proof.
  apply unreadable_scripts_no_output.
  - vm_compute. discriminate.
  - vm_compute. intros n [<-|[<-|[]]]; reflexivity.
Defined.

(** X24.  The directory a run of [main] leaves gives the same run
    again: the second run goes through the same events and ends in the
    same way, so the output file of the first run takes no part in the
    second, and the second writes the same text. *)
Theorem rerun_repeats_run (d : directory) :
  events (main (final (main d))) = events (main d) /\
  value (main (final (main d))) = value (main d) /\
  writes (main (final (main d))) = writes (main d).
Proof.
  destruct (second_run_same d) as [E V]. split; [exact E|]. split; [exact V|].
  unfold writes. now rewrite E.
Qed.
